(** * The grid engine of the 2048 game (frontend/src/App.jsx)

    A shallow embedding of the tile grid of [App]: [addNewTile],
    [initializeGrid], [moveRow], [move], [checkGameOver] and [newGame],
    followed by the properties of the engine.

    Conventions of the embedding.
    - A grid is the JS array of the source, a [list Z]; cell values are the
      integers the source stores in it (exact in JS numbers far beyond any
      tile a 4x4 board can hold).
    - An array read [a[k]] is [a !! k : option Z].  A read outside the array
      yields [undefined] in JS, which this development does not model: the
      embedded function then returns [None].  Every function is shown to
      return [Some _] on the grids of [CELL_COUNT] cells the component holds.
    - [Math.random()] is an explicit argument, one per call made by the
      source: a binary64 number of [0, 1), given as the rational it is.  The
      product [Math.random() * n] is rounded to binary64 as the source's
      arithmetic rounds it.

    The touch handlers and [getTileColor] of [App] follow the engine, and
    the score ledger of contracts/Game2048.sol has its own modules,
    [Game2048] and [Game2048Proofs]. *)

From Stdlib Require Import ZArith QArith Qround Lia.
From Stdlib Require PrimFloat FloatOps Uint63.
From stdpp Require Import base option list strings gmap.

Local Open Scope Z_scope.

(** ** Constants *)

Definition GRID_SIZE : nat := 4.
Definition CELL_COUNT : nat := GRID_SIZE * GRID_SIZE.

(** The four strings the key and touch handlers pass to [move]. *)
Inductive Direction := Up | Down | Left | Right.

(** [for (let i = 0; i < n; i++) body], threading the variables the body
    updates; [None] as soon as one iteration reads outside an array. *)
Fixpoint forUpTo {Vars : Type} (n : nat) (body : nat → Vars → option Vars)
    (vars : Vars) : option Vars :=
  match n with
  | O => Some vars
  | S n' => vars' ← forUpTo n' body vars; body n' vars'
  end.

(** ** The random source *)

(** The range of [Math.random()]: the binary64 numbers of [0, 1).  Each is
    [m / 2^(53 + e)] for a significand [m] below [2^53] and an exponent [e]
    of [0 .. 1021]: [e = 1021] gives the subnormal numbers, the multiples of
    [2^-1074]. *)
Definition unitInterval (r : Q) : Prop :=
  ∃ m e : Z,
    0 ≤ m < 2 ^ 53 ∧ 0 ≤ e ≤ 1021 ∧ (r == m # Z.to_pos (2 ^ (53 + e)))%Q.

(** A draw in units of [2^-1074], of which every binary64 number below 1 is
    a whole number. *)
Definition ulps (r : Q) : Z := Qfloor (r * inject_Z (2 ^ 1074)).

(** The integer nearest to [M / 2^s], the even one of two equally near: the
    rounding of binary64 arithmetic. *)
Definition roundEven (M s : Z) : Z :=
  let q := M / 2 ^ s in
  let rest := M mod 2 ^ s in
  if decide (2 * rest < 2 ^ s) then q
  else if decide (2 ^ s < 2 * rest) then q + 1
  else if Z.even q then q else q + 1.

(** The binary64 number nearest to [M * 2^-1074], in the same units: the 53
    leading bits of [M] are kept and the [s] bits below them rounded away.
    A product of a draw and an array length is below that length and so
    never overflows. *)
Definition binary64 (M : Z) : Z :=
  let s := Z.log2 M - 52 in
  if decide (0 < s) then roundEven M s * 2 ^ s else M.

(** [Math.floor(Math.random() * n)] for an array length [n]: below [2^32],
    it is a binary64 number as it is.  The product is exact in
    [ulps r * n], rounded by [binary64] and then floored. *)
Definition randomIndex (r : Q) (n : nat) : nat :=
  Z.to_nat (binary64 (ulps r * Z.of_nat n) / 2 ^ 1074).

(** The binary64 number the literal [0.9] denotes: [0.9] rounded to 53 bits. *)
Definition literal_0_9 : Q := 8106479329266893 # 9007199254740992.

(** [Math.random() < 0.9 ? 2 : 4] *)
Definition randomTile (r : Q) : Z :=
  if Qlt_le_dec r literal_0_9 then 2 else 4.

(** ** The kernel's binary64 numbers

    [Math.floor((m / 2^53) * n)] once more, multiplied this time by the
    binary64 numbers Rocq's kernel provides.  Nothing of the engine uses
    these; they are a second opinion on [binary64] at the draws next to the
    boundaries between the equal parts of [0, 1). *)
Definition floatFloor (x : PrimFloat.float) : Z :=
  match FloatOps.Prim2SF x with
  | SpecFloat.S754_finite false significand exponent =>
      if decide (0 ≤ exponent) then Z.pos significand * 2 ^ exponent
      else Z.pos significand / 2 ^ (- exponent)
  | _ => 0
  end.

Definition floatIndex (m : Z) (n : nat) : Z :=
  floatFloor
    (PrimFloat.mul
       (FloatOps.Z.ldexp (PrimFloat.of_uint63 (Uint63.of_Z m)) (-53))
       (PrimFloat.of_uint63 (Uint63.of_Z (Z.of_nat n)))).

(** The last significand of every part, for up to 16 parts: the largest [m]
    with [m / 2^53 < i / n]. *)
Definition boundarySignificands : list (Z * nat) :=
  n ← seq 1 16;
  i ← seq 1 n;
  [((Z.of_nat i * 2 ^ 53 - 1) / Z.of_nat n, n)].

(** ** addNewTile *)

(** The [forEach] of [addNewTile]: the indices of the cells equal to 0, in
    increasing order. *)
Fixpoint emptyCellsFrom (index : nat) (currentGrid : list Z) : list nat :=
  match currentGrid with
  | [] => []
  | cell :: rest =>
      if decide (cell = 0) then index :: emptyCellsFrom (S index) rest
      else emptyCellsFrom (S index) rest
  end.

Definition emptyCells (currentGrid : list Z) : list nat :=
  emptyCellsFrom 0 currentGrid.

(** [rIndex] and [rValue] are the two draws, in the order the source makes
    them; neither is consumed when no cell is empty. *)
Definition addNewTile (currentGrid : list Z) (rIndex rValue : Q)
  : option (list Z) :=
  let empty := emptyCells currentGrid in
  if decide (0 < length empty)%nat then
    randomIdx ← empty !! randomIndex rIndex (length empty);
    Some (<[randomIdx := randomTile rValue]> currentGrid)
  else Some currentGrid.

(** ** initializeGrid *)

(** [Array(CELL_COUNT).fill(0)] and the two calls of [addNewTile], each with
    its two draws. *)
Definition initializeGrid (r1 r2 r3 r4 : Q) : option (list Z) :=
  let newGrid := replicate CELL_COUNT 0 in
  newGrid ← addNewTile newGrid r1 r2;
  addNewTile newGrid r3 r4.

(** ** moveRow *)

(** The [for] loop of [moveRow] over [filtered], as a scan of the cells not
    yet visited: [filtered] here is the source's [filtered] from index [i]
    on.  [i < filtered.length - 1 && filtered[i] === filtered[i + 1]] is the
    case of two leading equal cells, and the extra [i++] drops both. *)
Fixpoint mergeLoop (filtered merged : list Z) (points : Z) : list Z * Z :=
  match filtered with
  | [] => (merged, points)
  | x :: rest =>
      match rest with
      | y :: rest' =>
          if decide (x = y)
          then mergeLoop rest' (merged ++ [x * 2]) (points + x * 2)
          else mergeLoop rest (merged ++ [x]) points
      | [] => mergeLoop rest (merged ++ [x]) points
      end
  end.

(** The same loop with its index [i] spelled out, one iteration per unit of
    [fuel]; [mergeLoopAt_scan] shows that it computes [mergeLoop]. *)
Fixpoint mergeLoopAt (fuel : nat) (filtered : list Z) (i : nat)
    (merged : list Z) (points : Z) : option (list Z * Z) :=
  if decide (i < length filtered)%nat then
    match fuel with
    | O => None
    | S fuel =>
        current ← filtered !! i;
        if decide (i < length filtered - 1)%nat then
          next ← filtered !! (i + 1)%nat;
          if decide (current = next)
          then mergeLoopAt fuel filtered (i + 1 + 1)
                 (merged ++ [current * 2]) (points + current * 2)
          else mergeLoopAt fuel filtered (i + 1) (merged ++ [current]) points
        else mergeLoopAt fuel filtered (i + 1) (merged ++ [current]) points
    end
  else Some (merged, points).

(** [moveRow] closes over the [points] counter of [move]; the counter is
    passed in and returned. *)
Definition moveRow (row : list Z) (points : Z) : list Z * Z :=
  let filtered := filter (λ val, val ≠ 0) row in
  let '(merged, points) := mergeLoop filtered [] points in
  (merged ++ replicate (GRID_SIZE - length merged) 0, points).

(** ** move *)

(** The local variables of [move]. *)
Record Locals := { newGrid : list Z; moved : bool; points : Z }.

(** One iteration of either outer loop of [move]: [cellIndex j] is the grid
    index of the [j]-th cell of the line ([i * GRID_SIZE + j] for row [i],
    [j * GRID_SIZE + c] for column [c]); [towardEnd] holds for 'right' and
    'down', where the line is reversed around [moveRow]. *)
Definition shiftLine (cellIndex : nat → nat) (towardEnd : bool) (st : Locals)
  : option Locals :=
  line ← forUpTo GRID_SIZE
    (λ j line, cell ← newGrid st !! cellIndex j; Some (line ++ [cell])) [];
  let '(movedLine, pts) :=
    if towardEnd
    then let '(merged, pts) := moveRow (reverse line) (points st) in
         (reverse merged, pts)
    else moveRow line (points st) in
  forUpTo GRID_SIZE
    (λ j st,
       old ← newGrid st !! cellIndex j;
       new ← movedLine !! j;
       Some {| newGrid := <[cellIndex j := new]> (newGrid st);
               moved := if decide (old ≠ new) then true else moved st;
               points := points st |})
    {| newGrid := newGrid st; moved := moved st; points := pts |}.

(** The body of [move] from [const newGrid = [...grid]] to the end of the
    direction branches: the locals as they are when [if (moved)] is reached. *)
Definition slideMerge (direction : Direction) (grid : list Z) : option Locals :=
  let start := {| newGrid := grid; moved := false; points := 0 |} in
  match direction with
  | Left =>
      forUpTo GRID_SIZE (λ i, shiftLine (λ j, i * GRID_SIZE + j)%nat false) start
  | Right =>
      forUpTo GRID_SIZE (λ i, shiftLine (λ j, i * GRID_SIZE + j)%nat true) start
  | Up =>
      forUpTo GRID_SIZE (λ j, shiftLine (λ i, i * GRID_SIZE + j)%nat false) start
  | Down =>
      forUpTo GRID_SIZE (λ j, shiftLine (λ i, i * GRID_SIZE + j)%nat true) start
  end.

(** ** checkGameOver *)

(** The body of the inner loop of [checkGameOver]: [true] when one of the two
    [return false] statements is taken at cell [(i, j)]. *)
Definition equalNeighbour (currentGrid : list Z) (i j : nat) : option bool :=
  current ← currentGrid !! (i * GRID_SIZE + j)%nat;
  beside ← (if decide (j < GRID_SIZE - 1)%nat
            then next ← currentGrid !! (i * GRID_SIZE + j + 1)%nat;
                 Some (bool_decide (current = next))
            else Some false);
  if beside : bool then Some true
  else if decide (i < GRID_SIZE - 1)%nat
       then below ← currentGrid !! ((i + 1) * GRID_SIZE + j)%nat;
            Some (bool_decide (current = below))
       else Some false.

(** The loops carry whether [return false] was taken; once it was, the
    remaining iterations do nothing, as after the source's early return. *)
Definition checkGameOver (currentGrid : list Z) : option bool :=
  if decide (0 ∈ currentGrid) then Some false
  else
    returned ← forUpTo GRID_SIZE
      (λ i, forUpTo GRID_SIZE
         (λ j returned,
            if returned : bool then Some true
            else equalNeighbour currentGrid i j))
      false;
    Some (negb returned).

(** ** The component state and its transitions *)

(** The part of the React state of [App] the engine reads and writes. *)
Record GameState :=
  { grid : list Z; score : Z; bestScore : Z; gameOver : bool }.

(** [move direction]: the new state after the state setters have run.
    [rIndex] and [rValue] are the draws of the [addNewTile] call. *)
Definition move (direction : Direction) (rIndex rValue : Q) (st : GameState)
  : option GameState :=
  if gameOver st then Some st
  else
    locals ← slideMerge direction (grid st);
    if moved locals then
      spawned ← addNewTile (newGrid locals) rIndex rValue;
      over ← checkGameOver spawned;
      let newScore := score st + points locals in
      Some {| grid := spawned;
              score := newScore;
              bestScore := if decide (bestScore st < newScore)
                           then newScore else bestScore st;
              gameOver := if over : bool then true else gameOver st |}
    else Some st.

(** [newGame]; [bestScore] is kept. *)
Definition newGame (r1 r2 r3 r4 : Q) (st : GameState) : option GameState :=
  fresh ← initializeGrid r1 r2 r3 r4;
  Some {| grid := fresh; score := 0; bestScore := bestScore st;
          gameOver := false |}.


(** A sequence of [move] calls, each with its direction and its draws. *)
Fixpoint playMoves (inputs : list (Direction * Q * Q)) (st : GameState)
  : option GameState :=
  match inputs with
  | [] => Some st
  | (direction, rIndex, rValue) :: rest =>
      st' ← move direction rIndex rValue st; playMoves rest st'
  end.

(** ** Notions used to state the properties *)

(** What a scan pushes and scores when it starts with nothing pushed. *)
Definition mergedCells (filtered : list Z) : list Z := (mergeLoop filtered [] 0).1.
Definition mergePoints (filtered : list Z) : Z := (mergeLoop filtered [] 0).2.

(** The row returned by [moveRow], and the points it adds. *)
Definition slide (row : list Z) : list Z := (moveRow row 0).1.
Definition gain (row : list Z) : Z := (moveRow row 0).2.

Definition towardEnd (direction : Direction) : bool :=
  match direction with Right | Down => true | Left | Up => false end.

(** Grid index of the [j]-th cell of the [i]-th line of a direction: row [i]
    for 'left' and 'right', column [i] for 'up' and 'down'. *)
Definition cellIndex (direction : Direction) (i j : nat) : nat :=
  match direction with
  | Left | Right => i * GRID_SIZE + j
  | Up | Down => j * GRID_SIZE + i
  end.

Definition lineOf (direction : Direction) (grid : list Z) (i : nat) : list Z :=
  (λ j, grid !!! cellIndex direction i j) <$> seq 0 GRID_SIZE.

Definition linesOf (direction : Direction) (grid : list Z) : list (list Z) :=
  lineOf direction grid <$> seq 0 GRID_SIZE.

(** A line after the move, and the points the line earns. *)
Definition shiftedLine (direction : Direction) (line : list Z) : list Z :=
  if towardEnd direction then reverse (slide (reverse line)) else slide line.

Definition lineGain (direction : Direction) (line : list Z) : Z :=
  if towardEnd direction then gain (reverse line) else gain line.

Definition sumZ (cells : list Z) : Z := foldr Z.add 0 cells.

(** The non-zero cells, in grid order. *)
Definition tiles (cells : list Z) : list Z := filter (λ val, val ≠ 0) cells.




(** A draw just below [3/11], where the product with 11 rounds up to 3. *)
Definition boundaryDraw : Q := 1228254443828317 # 4503599627370496.


(** The cell of row [i] and column [j]. *)
Definition cellAt (grid : list Z) (i j : nat) : Z :=
  grid !!! (i * GRID_SIZE + j)%nat.

(** No cell equals its right neighbour or the cell below it: these are all
    the horizontally and vertically adjacent pairs. *)
Definition noEqualAdjacent (grid : list Z) : Prop :=
  ∀ i j, (i < GRID_SIZE)%nat → (j < GRID_SIZE)%nat →
    ((j + 1 < GRID_SIZE)%nat → cellAt grid i j ≠ cellAt grid i (j + 1))
    ∧ ((i + 1 < GRID_SIZE)%nat → cellAt grid i j ≠ cellAt grid (i + 1) j).

(** A tile: a power of two, at least 2.  A cell is empty or holds a tile. *)
Definition tileValue (val : Z) : Prop := ∃ k : nat, val = 2 ^ Z.of_nat (S k).
Definition cellOk (val : Z) : Prop := val = 0 ∨ tileValue val.

(** The states the component can be in: the state after mount (the best
    score comes from local storage), then any sequence of [move] and
    [newGame] calls, each with draws of [Math.random()]. *)
Inductive reachable : GameState → Prop :=
  | reachable_mount r1 r2 r3 r4 fresh best :
      unitInterval r1 → unitInterval r2 → unitInterval r3 → unitInterval r4 →
      initializeGrid r1 r2 r3 r4 = Some fresh →
      reachable {| grid := fresh; score := 0; bestScore := best;
                   gameOver := false |}
  | reachable_move direction rIndex rValue st st' :
      reachable st →
      unitInterval rIndex → unitInterval rValue →
      move direction rIndex rValue st = Some st' →
      reachable st'
  | reachable_newGame r1 r2 r3 r4 st st' :
      reachable st →
      unitInterval r1 → unitInterval r2 → unitInterval r3 → unitInterval r4 →
      newGame r1 r2 r3 r4 st = Some st' →
      reachable st'.

(** No two neighbours of a line are equal. *)
Fixpoint noEqualNeighbours (line : list Z) : Prop :=
  match line with
  | x :: (y :: _) as rest => x ≠ y ∧ noEqualNeighbours rest
  | _ => True
  end.

(** Row [i] of a grid. *)
Definition rowOf (grid : list Z) (i : nat) : list Z := lineOf Left grid i.

(** ** Fixtures *)

(** The grid of concrete scenario 3: the row [4, 2, 2, 4] above empty rows. *)
Definition scenario3 : list Z :=
  [4; 2; 2; 4;  0; 0; 0; 0;  0; 0; 0; 0;  0; 0; 0; 0].

(** A full board without an equal adjacent pair; every cell equals its
    diagonal neighbours. *)
Definition checkerboard : list Z :=
  [2; 4; 2; 4;  4; 2; 4; 2;  2; 4; 2; 4;  4; 2; 4; 2].

(** A full board with a single equal adjacent pair, in the last row. *)
Definition lastPairBoard : list Z :=
  [2; 4; 2; 4;  4; 2; 4; 2;  2; 4; 2; 4;  4; 2; 8; 8].

(** A board packed to the left without equal neighbours in a row. *)
Definition packedLeft : list Z :=
  [2; 4; 0; 0;  8; 0; 0; 0;  0; 0; 0; 0;  2; 4; 2; 0].

(** A board on which 'left' slides without merging. *)
Definition looseBoard : list Z :=
  [0; 2; 0; 4;  0; 0; 0; 0;  0; 0; 8; 0;  0; 0; 0; 0].

Definition mountState (cells : list Z) : GameState :=
  {| grid := cells; score := 0; bestScore := 0; gameOver := false |}.

(** ** More notions for the engine *)

(** A line seen from the edge a direction moves toward. *)
Definition fromEdge (direction : Direction) (line : list Z) : list Z :=
  if towardEnd direction then reverse line else line.

(** The tiles of a line come first and the empty cells last. *)
Definition packed (line : list Z) : Prop :=
  line = tiles line ++ replicate (length line - length (tiles line)) 0.

(** Each row of a grid reversed: the grid seen in a mirror. *)
Definition mirror (grid : list Z) : list Z :=
  concat (reverse <$> linesOf Left grid).

(** Rows and columns exchanged. *)
Definition transpose (grid : list Z) : list Z :=
  concat (linesOf Up grid).

(** The grid of a mount that draws the tile 2 for cells 0 and 1. *)
Definition twoTwos : list Z :=
  [2; 2; 0; 0;  0; 0; 0; 0;  0; 0; 0; 0;  0; 0; 0; 0].

(** ** Touch input *)

(** [touchStartRef.current]: each coordinate is [null] or a number.  Client
    coordinates are taken in whole pixels, for which the subtractions of
    [handleTouchEnd] are exact. *)
Record TouchStart := { startX : option Z; startY : option Z }.

(** [!v] for a coordinate: [null] and 0 are falsy. *)
Definition falsy (v : option Z) : bool :=
  match v with
  | None => true
  | Some n => bool_decide (n = 0)
  end.

Definition handleTouchStart (clientX clientY : Z) : TouchStart :=
  {| startX := Some clientX; startY := Some clientY |}.

(** [handleTouchEnd]: the direction it passes to [move], if any, and the
    reference afterwards. *)
Definition handleTouchEnd (clientX clientY : Z) (ref : TouchStart)
  : option Direction * TouchStart :=
  if falsy (startX ref) || falsy (startY ref) then (None, ref)
  else
    match startX ref, startY ref with
    | Some x, Some y =>
        let deltaX := clientX - x in
        let deltaY := clientY - y in
        let minSwipeDistance := 50 in
        let swipe :=
          if decide (Z.abs deltaY < Z.abs deltaX) then
            if decide (minSwipeDistance < Z.abs deltaX)
            then Some (if decide (0 < deltaX) then Right else Left)
            else None
          else
            if decide (minSwipeDistance < Z.abs deltaY)
            then Some (if decide (0 < deltaY) then Down else Up)
            else None in
        (swipe, {| startX := None; startY := None |})
    | _, _ => (None, ref)
    end.

(** ** getTileColor *)

(** [colors[value] || 'bg-purple-600']: every class of the table is a
    non-empty string, so the default is taken exactly for the values the
    table does not list. *)
Definition getTileColor (value : Z) : string :=
  if decide (value = 0) then "bg-gray-200"
  else if decide (value = 2) then "bg-gray-100"
  else if decide (value = 4) then "bg-yellow-100"
  else if decide (value = 8) then "bg-yellow-200"
  else if decide (value = 16) then "bg-orange-200"
  else if decide (value = 32) then "bg-orange-300"
  else if decide (value = 64) then "bg-orange-400"
  else if decide (value = 128) then "bg-red-300"
  else if decide (value = 256) then "bg-red-400"
  else if decide (value = 512) then "bg-red-500"
  else if decide (value = 1024) then "bg-purple-400"
  else if decide (value = 2048) then "bg-purple-500"
  else "bg-purple-600".

(** * The score ledger (contracts/Game2048.sol)

    The contract in its own name space.  A [uint256] is an integer of
    [0 .. MAX_UINT256]; the arithmetic of Solidity 0.8 is checked, so an
    overflow ends the call with [Panic 0x11] and an array index out of
    bounds with [Panic 0x32], and a failed [require] reverts with its
    message.  A call that does not return leaves the storage as it was.  A
    [string] is the sequence of its bytes; an address is an integer. *)

Module Game2048.

Definition MAX_UINT256 : Z := 2 ^ 256 - 1.
Definition MAX_LEADERBOARD_SIZE : Z := 100.

(** How a call ends. *)
Inductive Outcome (A : Type) : Type :=
  | Return (a : A)
  | Revert (reason : string)
  | Panic (code : Z).
Arguments Return {A} a.
Arguments Revert {A} reason.
Arguments Panic {A} code.

Definition andThen {A B : Type} (o : Outcome A) (k : A → Outcome B) : Outcome B :=
  match o with
  | Return a => k a
  | Revert reason => Revert reason
  | Panic code => Panic code
  end.

(** [a[i]] as a value, [a[i] = x] as a statement. *)
Definition readAt {A : Type} (a : list A) (i : nat) : Outcome A :=
  match a !! i with
  | Some x => Return x
  | None => Panic 0x32
  end.

Definition writeAt {A : Type} (a : list A) (i : nat) (x : A) : Outcome (list A) :=
  if decide (i < length a)%nat then Return (<[i := x]> a) else Panic 0x32.

(** [for (uint256 k = 0; k < n; k++) body] *)
Fixpoint loop {Vars : Type} (n : nat) (body : nat → Vars → Outcome Vars)
    (vars : Vars) : Outcome Vars :=
  match n with
  | O => Return vars
  | S n' => andThen (loop n' body vars) (body n')
  end.

(** [struct Score]; its [player] and [playerName] are named apart from those
    of [LeaderboardEntry]. *)
Record Score := {
  scorePlayer : Z;
  score : Z;
  timestamp : Z;
  scorePlayerName : string
}.

Record LeaderboardEntry := {
  player : Z;
  playerName : string;
  highScore : Z;
  gamesPlayed : Z;
  totalScore : Z
}.

(** The value of a mapping slot or a fresh array element. *)
Definition zeroEntry : LeaderboardEntry :=
  {| player := 0; playerName := ""; highScore := 0; gamesPlayed := 0;
     totalScore := 0 |}.

Definition zeroScore : Score :=
  {| scorePlayer := 0; score := 0; timestamp := 0; scorePlayerName := "" |}.

(** The state variables. *)
Record Storage := {
  allScores : list Score;
  playerStats : gmap Z LeaderboardEntry;
  players : list Z
}.

Definition deployed : Storage :=
  {| allScores := []; playerStats := ∅; players := [] |}.

(** [playerStats[_player]], which is also [getPlayerStats]. *)
Definition getPlayerStats (_player : Z) (st : Storage) : LeaderboardEntry :=
  default zeroEntry (playerStats st !! _player).

Inductive Event :=
  | NewHighScore (player : Z) (playerName : string) (score timestamp : Z)
  | GamePlayed (player : Z) (score timestamp : Z).

(** [submitScore], called by [sender] in a block of time [now]. *)
Definition submitScore (sender now : Z) (_score : Z) (_playerName : string)
    (st : Storage) : Outcome (Storage * list Event) :=
  if decide (0 < _score) then
    if decide (0 < String.length _playerName)%nat then
      let scores := allScores st ++ [{| scorePlayer := sender; score := _score;
                                        timestamp := now;
                                        scorePlayerName := _playerName |}] in
      let entry := getPlayerStats sender st in
      let first := bool_decide (gamesPlayed entry = 0) in
      let joined := if first then players st ++ [sender] else players st in
      let entry :=
        if first
        then {| player := sender; playerName := _playerName;
                highScore := highScore entry; gamesPlayed := gamesPlayed entry;
                totalScore := totalScore entry |}
        else entry in
      if decide (gamesPlayed entry = MAX_UINT256) then Panic 0x11
      else if decide (MAX_UINT256 < totalScore entry + _score) then Panic 0x11
      else
        let higher := bool_decide (highScore entry < _score) in
        let entry :=
          {| player := player entry;
             playerName := if higher then _playerName else playerName entry;
             highScore := if higher then _score else highScore entry;
             gamesPlayed := gamesPlayed entry + 1;
             totalScore := totalScore entry + _score |} in
        Return ({| allScores := scores;
                   playerStats := <[sender := entry]> (playerStats st);
                   players := joined |},
                (if higher then [NewHighScore sender _playerName _score now] else [])
                ++ [GamePlayed sender _score now])
    else Revert "Player name required"
  else Revert "Score must be greater than 0".

(** The exchange of [allEntries[i]] and [allEntries[j]] when the first has
    the lower high score: the body of the inner sorting loop. *)
Definition exchange (i j : nat) (allEntries : list LeaderboardEntry)
  : Outcome (list LeaderboardEntry) :=
  andThen (readAt allEntries i) (λ ei,
  andThen (readAt allEntries j) (λ ej,
    if decide (highScore ei < highScore ej) then
      let temp := ei in
      andThen (writeAt allEntries i ej) (λ allEntries,
      writeAt allEntries j temp)
    else Return allEntries)).

(** The two sorting loops of [getTopPlayers]; [j] runs from [i + 1]. *)
Definition sortEntries (allEntries : list LeaderboardEntry)
  : Outcome (list LeaderboardEntry) :=
  let n := length allEntries in
  loop n (λ i, loop (n - (i + 1)) (λ k, exchange i (i + 1 + k))) allEntries.

Definition getTopPlayers (_count : Z) (st : Storage)
  : Outcome (list LeaderboardEntry) :=
  let count := _count in
  let count :=
    if decide (Z.of_nat (length (players st)) < count)
    then Z.of_nat (length (players st)) else count in
  let count :=
    if decide (MAX_LEADERBOARD_SIZE < count) then MAX_LEADERBOARD_SIZE else count in
  let n := length (players st) in
  andThen
    (loop n (λ i allEntries,
       andThen (readAt (players st) i) (λ p,
       writeAt allEntries i (getPlayerStats p st)))
       (replicate n zeroEntry)) (λ allEntries,
  andThen (sortEntries allEntries) (λ allEntries,
  loop (Z.to_nat count) (λ i topPlayers,
    andThen (readAt allEntries i) (λ e, writeAt topPlayers i e))
    (replicate (Z.to_nat count) zeroEntry))).

Definition getRecentScores (_count : Z) (st : Storage) : Outcome (list Score) :=
  let count := _count in
  let count :=
    if decide (Z.of_nat (length (allScores st)) < count)
    then Z.of_nat (length (allScores st)) else count in
  if decide (Z.of_nat (length (allScores st)) < count) then Panic 0x11
  else
    let startIndex := Z.to_nat (Z.of_nat (length (allScores st)) - count) in
    loop (Z.to_nat count) (λ i recentScores,
      andThen (readAt (allScores st) (startIndex + i)) (λ s,
      writeAt recentScores i s))
      (replicate (Z.to_nat count) zeroScore).

Definition getTotalGamesPlayed (st : Storage) : Z :=
  Z.of_nat (length (allScores st)).

(** The storage after any number of calls of [submitScore] that returned. *)
Inductive submitted : Storage → Prop :=
  | submitted_deployed : submitted deployed
  | submitted_score sender now _score _playerName st st' events :
      submitted st →
      0 ≤ _score ≤ MAX_UINT256 →
      submitScore sender now _score _playerName st = Return (st', events) →
      submitted st'.

(** A sequence of calls [(sender, block.timestamp, _score, _playerName)] of
    [submitScore], each on the storage the one before left. *)
Fixpoint submitAll (calls : list (Z * Z * Z * string)) (st : Storage)
  : Outcome Storage :=
  match calls with
  | [] => Return st
  | (sender, now, _score, _playerName) :: calls =>
      andThen (submitScore sender now _score _playerName st) (λ r,
      submitAll calls r.1)
  end.

(** The scores a player submitted, oldest first. *)
Definition scoresOf (p : Z) (st : Storage) : list Score :=
  filter (λ s, scorePlayer s = p) (allScores st).

(** The highest of a list of scores, 0 for none. *)
Definition highest (scores : list Z) : Z := foldr Z.max 0 scores.

(** A list of high scores in leaderboard order. *)
Fixpoint descending (keys : list Z) : Prop :=
  match keys with
  | x :: (y :: _) as rest => y ≤ x ∧ descending rest
  | _ => True
  end.

(** The statistics agree with the log of scores: [players] lists each
    address that submitted a score once, and the entry of a player counts,
    sums and tops its scores, carries its address and the name given with a
    score that equals its high score. *)
Definition consistent (st : Storage) : Prop :=
  NoDup (players st)
  ∧ (∀ s, s ∈ allScores st → 0 < score s)
  ∧ ∀ p,
      let entry := getPlayerStats p st in
      (p ∈ players st ↔ scoresOf p st ≠ [])
      ∧ gamesPlayed entry = Z.of_nat (length (scoresOf p st))
      ∧ totalScore entry = sumZ (score <$> scoresOf p st)
      ∧ highScore entry = highest (score <$> scoresOf p st)
      ∧ (p ∈ players st →
         player entry = p
         ∧ ∃ s, s ∈ scoresOf p st ∧ score s = highScore entry
                ∧ scorePlayerName s = playerName entry).

(** A ledger with two players. *)
Definition sampleLedger : Storage :=
  {| allScores :=
       [ {| scorePlayer := 7; score := 40; timestamp := 100;
            scorePlayerName := "ann" |};
         {| scorePlayer := 9; score := 96; timestamp := 101;
            scorePlayerName := "bob" |};
         {| scorePlayer := 7; score := 12; timestamp := 102;
            scorePlayerName := "anna" |} ];
     playerStats :=
       <[7 := {| player := 7; playerName := "ann"; highScore := 40;
                 gamesPlayed := 2; totalScore := 52 |}]>
         (<[9 := {| player := 9; playerName := "bob"; highScore := 96;
                    gamesPlayed := 1; totalScore := 96 |}]> ∅);
     players := [7; 9] |}.

End Game2048.

(** ** Sums of cells *)

Lemma sumZ_cons x cells : sumZ (x :: cells) = x + sumZ cells.
Proof. done. Qed.

Lemma sumZ_app cells1 cells2 : sumZ (cells1 ++ cells2) = sumZ cells1 + sumZ cells2.
Proof.
  induction cells1 as [|x cells1 IH]; [done|].
  cbn [app]. rewrite !sumZ_cons, IH. lia.
Qed.

Lemma sumZ_replicate_0 n : sumZ (replicate n 0) = 0.
Proof. induction n as [|n IH]; [done|]. cbn [replicate]. by rewrite sumZ_cons, IH. Qed.

Lemma sumZ_reverse cells : sumZ (reverse cells) = sumZ cells.
Proof.
  induction cells as [|x cells IH]; [done|].
  rewrite reverse_cons, sumZ_app, IH, !sumZ_cons. cbn. lia.
Qed.

Global Instance sumZ_Permutation : Proper ((≡ₚ) ==> (=)) sumZ.
Proof.
  intros cells1 cells2 Hperm.
  induction Hperm as [|x ?? _ IH|x y ?|??? _ IH1 _ IH2];
    rewrite ?sumZ_cons; [done | by rewrite IH | lia | congruence].
Qed.

(** ** The merge scan *)

Section MergeScan.

(** The induction that follows the cases of [mergeLoop]. *)
Lemma mergeLoop_ind (P : list Z → Prop) :
  P [] →
  (∀ x, P [x]) →
  (∀ x rest, P rest → P (x :: x :: rest)) →
  (∀ x y rest, x ≠ y → P (y :: rest) → P (x :: y :: rest)) →
  ∀ filtered, P filtered.
Proof.
  intros Hnil Hone Hmerge Hkeep filtered.
  assert (H : P filtered ∧ ∀ x, P (x :: filtered)); [|apply H].
  induction filtered as [|y rest [IH1 IH2]]; [by split|].
  split; [apply IH2|].
  intros x. destruct (decide (x = y)) as [->|Hne].
  - by apply Hmerge.
  - by apply Hkeep.
Qed.

Lemma mergeLoop_merge x rest merged pts :
  mergeLoop (x :: x :: rest) merged pts
  = mergeLoop rest (merged ++ [x * 2]) (pts + x * 2).
Proof. cbn [mergeLoop]. by destruct (decide (x = x)). Qed.

Lemma mergeLoop_keep x y rest merged pts :
  x ≠ y →
  mergeLoop (x :: y :: rest) merged pts
  = mergeLoop (y :: rest) (merged ++ [x]) pts.
Proof.
  intros Hne.
  change (mergeLoop (x :: y :: rest) merged pts)
    with (if decide (x = y)
          then mergeLoop rest (merged ++ [x * 2]) (pts + x * 2)
          else mergeLoop (y :: rest) (merged ++ [x]) pts).
  by destruct (decide (x = y)).
Qed.

(** What was pushed before is left alone, and the counter only grows by
    what the rest of the scan earns. *)
Lemma mergeLoop_frame filtered merged pts :
  mergeLoop filtered merged pts
  = (merged ++ mergedCells filtered, pts + mergePoints filtered).
Proof.
  unfold mergedCells, mergePoints.
  revert merged pts.
  induction filtered as [| x | x rest IH | x y rest Hne IH] using mergeLoop_ind;
    intros merged pts.
  - cbn. by rewrite app_nil_r, Z.add_0_r.
  - cbn. by rewrite Z.add_0_r.
  - rewrite !mergeLoop_merge.
    rewrite (IH (merged ++ [x * 2])), (IH ([] ++ [x * 2])). cbn.
    f_equal; first [lia | by rewrite <- app_assoc].
  - rewrite !mergeLoop_keep by done.
    rewrite (IH (merged ++ [x])), (IH ([] ++ [x])). cbn.
    f_equal; first [lia | by rewrite <- app_assoc].
Qed.

Lemma mergedCells_merge x rest :
  mergedCells (x :: x :: rest) = x * 2 :: mergedCells rest.
Proof.
  unfold mergedCells at 1. by rewrite mergeLoop_merge, mergeLoop_frame.
Qed.

Lemma mergedCells_keep x y rest :
  x ≠ y → mergedCells (x :: y :: rest) = x :: mergedCells (y :: rest).
Proof.
  intros Hne. unfold mergedCells at 1.
  by rewrite mergeLoop_keep, mergeLoop_frame.
Qed.

Lemma mergePoints_merge x rest :
  mergePoints (x :: x :: rest) = x * 2 + mergePoints rest.
Proof.
  unfold mergePoints at 1. by rewrite mergeLoop_merge, mergeLoop_frame.
Qed.

Lemma mergePoints_keep x y rest :
  x ≠ y → mergePoints (x :: y :: rest) = mergePoints (y :: rest).
Proof.
  intros Hne. unfold mergePoints at 1.
  by rewrite mergeLoop_keep, mergeLoop_frame.
Qed.

(** The loop with its index computes the scan of the cells from [i] on. *)
Lemma mergeLoopAt_scan fuel filtered i merged pts :
  (length filtered ≤ i + fuel)%nat →
  mergeLoopAt fuel filtered i merged pts
  = Some (mergeLoop (drop i filtered) merged pts).
Proof.
  revert i merged pts. induction fuel as [|fuel IH]; intros i merged pts Hfuel.
  - cbn [mergeLoopAt]. rewrite decide_False by lia.
    by rewrite drop_ge by lia.
  - cbn [mergeLoopAt]. destruct (decide (i < length filtered)%nat) as [Hi|Hi];
      [|by rewrite drop_ge by lia].
    destruct (lookup_lt_is_Some_2 filtered i Hi) as [x Hx].
    rewrite Hx, (drop_S _ _ _ Hx). cbn [mbind option_bind].
    replace (S i) with (i + 1)%nat by lia.
    destruct (decide (i < length filtered - 1)%nat) as [Hnext|Hlast].
    + destruct (lookup_lt_is_Some_2 filtered (i + 1)) as [y Hy]; [lia|].
      rewrite Hy, (drop_S _ _ _ Hy). cbn [mbind option_bind].
      destruct (decide (x = y)) as [->|Hne].
      * rewrite mergeLoop_merge, IH by lia. do 3 f_equal. lia.
      * rewrite mergeLoop_keep, IH by (done || lia).
        by rewrite (drop_S _ _ _ Hy).
    + rewrite IH by lia. by rewrite (drop_ge filtered (i + 1)) by lia.
Qed.

Lemma mergeLoopAt_whole filtered pts :
  mergeLoopAt (length filtered) filtered 0 [] pts
  = Some (mergeLoop filtered [] pts).
Proof. by rewrite mergeLoopAt_scan. Qed.

(** A merge shortens the line; without one the scan copies it. *)
Lemma mergedCells_length filtered :
  (length (mergedCells filtered) ≤ length filtered)%nat.
Proof.
  induction filtered as [| x | x rest IH | x y rest Hne IH] using mergeLoop_ind.
  - done.
  - done.
  - rewrite mergedCells_merge. cbn. lia.
  - rewrite mergedCells_keep by done. cbn in *. lia.
Qed.

Lemma mergedCells_full filtered :
  length (mergedCells filtered) = length filtered →
  mergedCells filtered = filtered ∧ mergePoints filtered = 0.
Proof.
  induction filtered as [| x | x rest IH | x y rest Hne IH] using mergeLoop_ind.
  - done.
  - done.
  - rewrite mergedCells_merge. cbn.
    pose proof (mergedCells_length rest). lia.
  - rewrite mergedCells_keep, mergePoints_keep by done. cbn. intros Hlen.
    destruct IH as [-> ->]; [cbn in *; lia | done].
Qed.

Lemma mergedCells_sum filtered : sumZ (mergedCells filtered) = sumZ filtered.
Proof.
  induction filtered as [| x | x rest IH | x y rest Hne IH] using mergeLoop_ind.
  - done.
  - done.
  - rewrite mergedCells_merge, !sumZ_cons. lia.
  - rewrite mergedCells_keep, !sumZ_cons by done. rewrite sumZ_cons in IH. lia.
Qed.

Lemma mergedCells_nonzero filtered :
  Forall (λ val, val ≠ 0) filtered → Forall (λ val, val ≠ 0) (mergedCells filtered).
Proof.
  induction filtered as [| x | x rest IH | x y rest Hne IH] using mergeLoop_ind;
    intros Hnz.
  - done.
  - done.
  - rewrite mergedCells_merge.
    inversion_clear Hnz as [|?? Hx Hnz']. inversion_clear Hnz' as [|?? _ Hrest].
    constructor; [lia | by apply IH].
  - rewrite mergedCells_keep by done.
    inversion_clear Hnz as [|?? Hx Hnz'].
    constructor; [done | by apply IH].
Qed.

(** With positive cells every merge earns points, so a scan that earns
    nothing has copied the line. *)
Lemma mergePoints_positive filtered :
  Forall (λ val, 0 < val) filtered →
  0 ≤ mergePoints filtered
  ∧ (mergePoints filtered = 0 → mergedCells filtered = filtered).
Proof.
  induction filtered as [| x | x rest IH | x y rest Hne IH] using mergeLoop_ind;
    intros Hpos.
  - done.
  - done.
  - rewrite mergePoints_merge.
    inversion_clear Hpos as [|?? Hx Hpos']. inversion_clear Hpos' as [|?? _ Hrest].
    destruct (IH Hrest). lia.
  - rewrite mergePoints_keep, mergedCells_keep by done.
    inversion_clear Hpos as [|?? Hx Hpos'].
    destruct (IH Hpos') as [? Hcopy]. split; [done|].
    intros Hzero. by rewrite Hcopy.
Qed.

Lemma mergedCells_noEqualNeighbours filtered :
  noEqualNeighbours filtered →
  mergedCells filtered = filtered ∧ mergePoints filtered = 0.
Proof.
  induction filtered as [| x | x rest IH | x y rest Hne IH] using mergeLoop_ind.
  - done.
  - done.
  - by intros [? _].
  - intros [_ Hrest]. rewrite mergedCells_keep, mergePoints_keep by done.
    by destruct (IH Hrest) as [-> ->].
Qed.

End MergeScan.

(** ** moveRow on one line *)

Section MoveRow.

Lemma tiles_nonzero cells : Forall (λ val, val ≠ 0) (tiles cells).
Proof. apply Forall_forall. intros x Hx. by apply list_elem_of_filter in Hx as [? _]. Qed.

Lemma tiles_id cells : Forall (λ val, val ≠ 0) cells → tiles cells = cells.
Proof.
  induction 1 as [|x cells Hx _ IH]; [done|].
  unfold tiles in *. by rewrite filter_cons_True, IH.
Qed.

Lemma tiles_Forall (P : Z → Prop) cells : Forall P cells → Forall P (tiles cells).
Proof.
  rewrite !Forall_forall. intros Hall x Hx.
  apply list_elem_of_filter in Hx as [_ Hx]. by apply Hall.
Qed.

Lemma tiles_app cells1 cells2 : tiles (cells1 ++ cells2) = tiles cells1 ++ tiles cells2.
Proof. apply filter_app. Qed.

Lemma tiles_replicate_0 n : tiles (replicate n 0) = [].
Proof. induction n as [|n IH]; [done|]. cbn [replicate]. unfold tiles in *. by rewrite filter_cons_False by lia. Qed.

Lemma tiles_reverse cells : tiles (reverse cells) = reverse (tiles cells).
Proof. apply filter_reverse. Qed.

Lemma tiles_sum cells : sumZ (tiles cells) = sumZ cells.
Proof.
  induction cells as [|x cells IH]; [done|].
  unfold tiles in *. rewrite filter_cons.
  destruct (decide (x ≠ 0)) as [|Hx]; rewrite !sumZ_cons, IH; [done|].
  apply dec_stable in Hx. lia.
Qed.

(** A line without a zero is its own list of tiles, and conversely. *)
Lemma tiles_full cells : length (tiles cells) = length cells → tiles cells = cells.
Proof.
  intros Hlen. apply tiles_id, Forall_forall. intros x Hx ->.
  pose proof (length_filter_lt (λ val, val ≠ 0) cells 0 Hx) as Hlt.
  unfold tiles in Hlen. lia.
Qed.

Lemma moveRow_frame row pts : moveRow row pts = (slide row, pts + gain row).
Proof.
  unfold slide, gain, moveRow.
  by rewrite (mergeLoop_frame _ [] pts), (mergeLoop_frame _ [] 0).
Qed.

Lemma slide_eq row :
  slide row = mergedCells (tiles row)
              ++ replicate (GRID_SIZE - length (mergedCells (tiles row))) 0.
Proof. unfold slide, moveRow. by rewrite (mergeLoop_frame _ [] 0). Qed.

Lemma gain_eq row : gain row = mergePoints (tiles row).
Proof. unfold gain, moveRow. by rewrite (mergeLoop_frame _ [] 0). Qed.

Lemma mergedCells_tiles_length row :
  (length (mergedCells (tiles row)) ≤ length row)%nat.
Proof.
  pose proof (mergedCells_length (tiles row)).
  pose proof (length_filter (λ val, val ≠ 0) row). unfold tiles in *. lia.
Qed.

Lemma slide_length row : length row = GRID_SIZE → length (slide row) = GRID_SIZE.
Proof.
  intros Hlen. rewrite slide_eq, length_app, length_replicate.
  pose proof (mergedCells_tiles_length row). lia.
Qed.

Lemma slide_sum row : sumZ (slide row) = sumZ row.
Proof.
  by rewrite slide_eq, sumZ_app, sumZ_replicate_0, mergedCells_sum, tiles_sum, Z.add_0_r.
Qed.

Lemma slide_tiles row : tiles (slide row) = mergedCells (tiles row).
Proof.
  rewrite slide_eq, tiles_app, tiles_replicate_0, app_nil_r.
  apply tiles_id, mergedCells_nonzero, tiles_nonzero.
Qed.

(** A line that keeps all [GRID_SIZE] cells after the scan is unchanged. *)
Lemma slide_full row :
  length row = GRID_SIZE →
  length (mergedCells (tiles row)) = GRID_SIZE →
  slide row = row.
Proof.
  intros Hrow Hfull.
  pose proof (mergedCells_length (tiles row)).
  pose proof (length_filter (λ val, val ≠ 0) row) as Hfilter.
  fold (tiles row) in Hfilter.
  rewrite slide_eq, Hfull, Nat.sub_diag, app_nil_r.
  destruct (mergedCells_full (tiles row)) as [-> _]; [lia|].
  apply tiles_full. lia.
Qed.

Lemma slide_changed_zero row :
  length row = GRID_SIZE → slide row ≠ row → 0 ∈ slide row.
Proof.
  intros Hrow Hchanged.
  pose proof (mergedCells_tiles_length row).
  destruct (decide (length (mergedCells (tiles row)) = GRID_SIZE)) as [Hfull|Hshort].
  - by destruct Hchanged; apply slide_full.
  - rewrite slide_eq. apply elem_of_app. right.
    destruct (GRID_SIZE - length (mergedCells (tiles row)))%nat eqn:Hpad; [lia|].
    cbn [replicate]. apply list_elem_of_here.
Qed.

Lemma slide_unchanged_gain row : slide row = row → gain row = 0.
Proof.
  intros Hsame. rewrite gain_eq.
  apply mergedCells_full. by rewrite <- slide_tiles, Hsame.
Qed.

Lemma gain_nonneg row : Forall (λ val, 0 ≤ val) row → 0 ≤ gain row.
Proof.
  intros Hrow. rewrite gain_eq. apply mergePoints_positive.
  apply Forall_forall. intros x Hx.
  apply list_elem_of_filter in Hx as [Hnz Hx].
  rewrite Forall_forall in Hrow. specialize (Hrow x Hx). cbn in *. lia.
Qed.

Lemma slide_relocates row :
  Forall (λ val, 0 ≤ val) row → gain row = 0 → tiles (slide row) = tiles row.
Proof.
  intros Hrow Hgain. rewrite slide_tiles. rewrite gain_eq in Hgain.
  apply mergePoints_positive; [|done].
  apply Forall_forall. intros x Hx.
  apply list_elem_of_filter in Hx as [Hnz Hx].
  rewrite Forall_forall in Hrow. specialize (Hrow x Hx). cbn in *. lia.
Qed.

Lemma slide_blocked row :
  length row = GRID_SIZE → 0 ∉ row → noEqualNeighbours row →
  slide row = row ∧ gain row = 0.
Proof.
  intros Hlen Hnz Hneq.
  assert (tiles row = row) as Htiles.
  { apply tiles_id, Forall_forall. by intros x Hx ->. }
  rewrite slide_eq, gain_eq, Htiles.
  destruct (mergedCells_noEqualNeighbours row Hneq) as [-> ->].
  by rewrite Hlen, Nat.sub_diag, app_nil_r.
Qed.

End MoveRow.

(** ** One line of a move, in either orientation *)

Section ShiftedLine.
Context (direction : Direction).

Lemma shiftedLine_length line :
  length line = GRID_SIZE → length (shiftedLine direction line) = GRID_SIZE.
Proof.
  intros Hlen. unfold shiftedLine. destruct (towardEnd direction).
  - rewrite length_reverse. apply slide_length. by rewrite length_reverse.
  - by apply slide_length.
Qed.

Lemma shiftedLine_sum line : sumZ (shiftedLine direction line) = sumZ line.
Proof.
  unfold shiftedLine. destruct (towardEnd direction).
  - by rewrite sumZ_reverse, slide_sum, sumZ_reverse.
  - apply slide_sum.
Qed.

Lemma shiftedLine_changed_zero line :
  length line = GRID_SIZE →
  shiftedLine direction line ≠ line → 0 ∈ shiftedLine direction line.
Proof.
  intros Hlen. unfold shiftedLine. destruct (towardEnd direction).
  - intros Hchanged. apply elem_of_reverse, slide_changed_zero.
    + by rewrite length_reverse.
    + intros Hsame. apply Hchanged. by rewrite Hsame, reverse_involutive.
  - by apply slide_changed_zero.
Qed.

Lemma shiftedLine_unchanged_gain line :
  shiftedLine direction line = line → lineGain direction line = 0.
Proof.
  unfold shiftedLine, lineGain. destruct (towardEnd direction).
  - intros Hsame. apply slide_unchanged_gain.
    by rewrite <- Hsame at 2; rewrite reverse_involutive.
  - apply slide_unchanged_gain.
Qed.

Lemma lineGain_nonneg line :
  Forall (λ val, 0 ≤ val) line → 0 ≤ lineGain direction line.
Proof.
  intros Hline. unfold lineGain. destruct (towardEnd direction).
  - apply gain_nonneg. by rewrite reverse_Permutation.
  - by apply gain_nonneg.
Qed.

Lemma shiftedLine_relocates line :
  Forall (λ val, 0 ≤ val) line → lineGain direction line = 0 →
  tiles (shiftedLine direction line) = tiles line.
Proof.
  intros Hline. unfold shiftedLine, lineGain. destruct (towardEnd direction).
  - intros Hgain. rewrite tiles_reverse, slide_relocates.
    + by rewrite tiles_reverse, reverse_involutive.
    + by rewrite reverse_Permutation.
    + done.
  - by apply slide_relocates.
Qed.

Lemma shiftedLine_blocked line :
  length line = GRID_SIZE → 0 ∉ line → noEqualNeighbours line →
  shiftedLine direction line = line ∧ lineGain direction line = 0.
Proof.
  intros Hlen Hnz Hneq. unfold shiftedLine, lineGain.
  destruct (towardEnd direction); [|by apply slide_blocked].
  destruct (slide_blocked (reverse line)) as [-> ->].
  - by rewrite length_reverse.
  - by rewrite elem_of_reverse.
  - destruct line as [|a [|b [|c [|d [|]]]]]; try done.
    cbn in *. destruct Hneq as (? & ? & ? & _). repeat split; congruence.
  - by rewrite reverse_involutive.
Qed.

End ShiftedLine.

(** ** Grids and their lines *)

Section Lines.

Lemma grid_cells (grid : list Z) :
  length grid = CELL_COUNT →
  ∃ a0 a1 a2 a3 a4 a5 a6 a7 a8 a9 a10 a11 a12 a13 a14 a15,
    grid = [a0; a1; a2; a3; a4; a5; a6; a7; a8; a9; a10; a11; a12; a13; a14; a15].
Proof.
  intros Hlen.
  do 16 (destruct grid as [|? grid]; [done|]).
  destruct grid; [|done]. by repeat eexists.
Qed.

Lemma line_cells (line : list Z) :
  length line = GRID_SIZE → ∃ x0 x1 x2 x3, line = [x0; x1; x2; x3].
Proof.
  intros Hlen.
  do 4 (destruct line as [|? line]; [done|]).
  destruct line; [|done]. by repeat eexists.
Qed.

Lemma lineOf_length direction grid i : length (lineOf direction grid i) = GRID_SIZE.
Proof. unfold lineOf. by rewrite length_fmap, length_seq. Qed.

Lemma linesOf_length direction grid :
  Forall (λ line, length line = GRID_SIZE) (linesOf direction grid).
Proof.
  unfold linesOf. apply Forall_fmap, Forall_forall. intros i _.
  apply lineOf_length.
Qed.

(** The lines of a direction hold every cell of the grid once. *)
Lemma linesOf_cells direction grid :
  length grid = CELL_COUNT → concat (linesOf direction grid) ≡ₚ grid.
Proof.
  intros Hlen.
  destruct (grid_cells grid Hlen)
    as (a0&a1&a2&a3&a4&a5&a6&a7&a8&a9&a10&a11&a12&a13&a14&a15&->).
  destruct direction; cbn; solve_Permutation.
Qed.

Lemma linesOf_inj direction grid1 grid2 :
  length grid1 = CELL_COUNT → length grid2 = CELL_COUNT →
  linesOf direction grid1 = linesOf direction grid2 → grid1 = grid2.
Proof.
  intros Hlen1 Hlen2.
  destruct (grid_cells grid1 Hlen1)
    as (a0&a1&a2&a3&a4&a5&a6&a7&a8&a9&a10&a11&a12&a13&a14&a15&->).
  destruct (grid_cells grid2 Hlen2)
    as (b0&b1&b2&b3&b4&b5&b6&b7&b8&b9&b10&b11&b12&b13&b14&b15&->).
  destruct direction; cbn; intros [=]; by subst.
Qed.

Lemma sumZ_concat (lines : list (list Z)) :
  sumZ (concat lines) = sumZ (sumZ <$> lines).
Proof.
  induction lines as [|line lines IH]; [done|].
  cbn [concat fmap list_fmap]. by rewrite sumZ_app, sumZ_cons, IH.
Qed.

Lemma fmap_fixed (f : list Z → list Z) (lines : list (list Z)) :
  Forall (λ line, f line = line) lines → f <$> lines = lines.
Proof.
  induction 1 as [|line lines Hline _ IH]; [done|].
  cbn [fmap list_fmap]. by f_equal.
Qed.

Lemma elem_of_concat (x : Z) line (lines : list (list Z)) :
  x ∈ line → line ∈ lines → x ∈ concat lines.
Proof.
  intros Hx Hline.
  induction lines as [|line' lines IH]; [by apply elem_of_nil in Hline|].
  cbn [concat]. apply elem_of_app.
  apply elem_of_cons in Hline as [->|Hline]; [by left | right; by apply IH].
Qed.

Lemma tiles_concat (lines : list (list Z)) :
  tiles (concat lines) = concat (tiles <$> lines).
Proof.
  induction lines as [|line lines IH]; [done|].
  cbn [concat fmap list_fmap]. by rewrite tiles_app, IH.
Qed.

End Lines.

(** ** The slide/merge phase of move, line by line *)

#[local] Arguments moveRow : simpl never.
#[local] Arguments slide : simpl never.
#[local] Arguments gain : simpl never.

Section SlideMerge.

(** Names the four cells [moveRow] returns for the next line. *)
Local Ltac next_line :=
  match goal with
  | |- context [moveRow ?line ?pts] =>
      let x0 := fresh "x" in let x1 := fresh "x" in
      let x2 := fresh "x" in let x3 := fresh "x" in
      let E := fresh "Eline" in
      rewrite (moveRow_frame line pts);
      destruct (line_cells (slide line)) as (x0 & x1 & x2 & x3 & E);
      [by apply slide_length | rewrite E; cbn -[decide]]
  end.

(** Settles the [moved] flag: the writes found a difference exactly when
    the grid changed. *)
Local Ltac moved_flag :=
  repeat match goal with
  | |- (if decide (?a ≠ ?b) then true else _) = true ↔ _ =>
      destruct (decide (a ≠ b)) as [?|?%dec_stable];
      [split; [intros _ [=]; congruence | done] | subst]
  end;
  split; [done | congruence].

Lemma slideMerge_lines direction grid :
  length grid = CELL_COUNT →
  ∃ locals,
    slideMerge direction grid = Some locals
    ∧ length (newGrid locals) = CELL_COUNT
    ∧ linesOf direction (newGrid locals)
      = shiftedLine direction <$> linesOf direction grid
    ∧ points locals = sumZ (lineGain direction <$> linesOf direction grid)
    ∧ (moved locals = true ↔ newGrid locals ≠ grid).
Proof.
  intros Hlen.
  destruct (grid_cells grid Hlen)
    as (a0&a1&a2&a3&a4&a5&a6&a7&a8&a9&a10&a11&a12&a13&a14&a15&->).
  destruct direction; unfold slideMerge, shiftLine, GRID_SIZE;
    cbn -[decide]; do 4 next_line;
    (eexists; split; [reflexivity|]);
    cbn -[decide]; unfold shiftedLine, lineGain, sumZ; cbn -[decide].
  all: rewrite ?Eline, ?Eline0, ?Eline1, ?Eline2.
  all: cbn -[decide].
  all: (split; [done|]); (split; [done|]); (split; [lia|]).
  all: moved_flag.
Qed.

End SlideMerge.

(** ** The random draws *)

Section Random.

Lemma pow2_pos k : 0 ≤ k → 0 < 2 ^ k.
Proof. intros Hk. by apply Z.pow_pos_nonneg. Qed.

Lemma pow2_split a b : 0 ≤ a → 0 ≤ b → 2 ^ (a + b) = 2 ^ a * 2 ^ b.
Proof. intros Ha Hb. by apply Z.pow_add_r. Qed.

(** A draw, in units of [2^-1074]. *)
Lemma unitInterval_ulps r :
  unitInterval r →
  0 ≤ ulps r ≤ 2 ^ 1074 - 2 ^ 1021
  ∧ (r == ulps r # Z.to_pos (2 ^ 1074))%Q.
Proof.
  intros (m & e & Hm & He & Hr).
  pose proof (pow2_pos (1021 - e) ltac:(lia)) as Hlow.
  pose proof (pow2_pos e ltac:(lia)) as Hexp.
  assert (2 ^ (53 + e) = 2 ^ 53 * 2 ^ e) as Hden by (apply pow2_split; lia).
  assert (2 ^ 1074 = 2 ^ 53 * 2 ^ e * 2 ^ (1021 - e)) as Hall.
  { rewrite <- Hden, <- pow2_split by lia. f_equal. lia. }
  assert (2 ^ 1021 = 2 ^ e * 2 ^ (1021 - e)) as Hmid.
  { rewrite <- pow2_split by lia. f_equal. lia. }
  assert (ulps r = m * 2 ^ (1021 - e)) as Hulps.
  { unfold ulps.
    assert (r * inject_Z (2 ^ 1074) == inject_Z (m * 2 ^ (1021 - e)))%Q as ->.
    { rewrite Hr. unfold Qeq, Qmult, inject_Z. cbn [Qnum Qden].
      rewrite Pos.mul_1_r, Z2Pos.id by (apply pow2_pos; lia).
      rewrite Hden, Hall. ring. }
    apply Qfloor_Z. }
  split.
  - rewrite Hulps. set (low := 2 ^ (1021 - e)) in *. set (high := 2 ^ e) in *.
    rewrite Hall, Hmid. split; [nia|].
    assert (m * low ≤ (2 ^ 53 - 1) * low) by nia.
    assert ((2 ^ 53 - 1) * low ≤ (2 ^ 53 - 1) * low * high) by nia.
    nia.
  - rewrite Hulps, Hr. unfold Qeq. cbn [Qnum Qden].
    rewrite !Z2Pos.id by (apply pow2_pos; lia).
    rewrite Hden, Hall. ring.
Qed.

(** Rounding to the nearest integer, and what it costs. *)
Lemma roundEven_near M s :
  0 ≤ s →
  M / 2 ^ s ≤ roundEven M s ≤ M / 2 ^ s + 1
  ∧ 2 * M - 2 ^ s ≤ 2 * (roundEven M s * 2 ^ s) ≤ 2 * M + 2 ^ s.
Proof.
  intros Hs. pose proof (pow2_pos s Hs) as Hpos.
  pose proof (Z.div_mod M (2 ^ s) ltac:(lia)) as Hdiv.
  pose proof (Z.mod_pos_bound M (2 ^ s) Hpos) as Hrest.
  unfold roundEven. cbn zeta.
  set (unit := 2 ^ s) in *. set (q := M / unit) in *. set (rest := M mod unit) in *.
  assert ((q + 1) * unit = q * unit + unit) as Hnext by ring.
  assert (unit * q = q * unit) as Hcomm by ring.
  destruct (decide (2 * rest < unit)); [lia|].
  destruct (decide (unit < 2 * rest)); [lia|].
  destruct (Z.even q); lia.
Qed.

(** [binary64] moves a number by at most [2^-53] of itself. *)
Lemma binary64_near M :
  0 ≤ M →
  M * (2 ^ 53 - 1) ≤ binary64 M * 2 ^ 53 ≤ M * (2 ^ 53 + 1).
Proof.
  intros HM. unfold binary64. cbn zeta.
  destruct (decide (0 < Z.log2 M - 52)) as [Hs|Hs]; [|lia].
  assert (0 < M) as Hpos.
  { destruct (decide (M = 0)) as [->|]; [|lia]. cbn in Hs. lia. }
  pose proof (Z.log2_spec M Hpos) as [Hlog _].
  destruct (roundEven_near M (Z.log2 M - 52) ltac:(lia)) as [_ Herr].
  assert (2 ^ Z.log2 M = 2 ^ (Z.log2 M - 52) * 2 ^ 52) as Hsplit.
  { rewrite <- pow2_split by lia. f_equal. lia. }
  rewrite Hsplit in Hlog.
  set (unit := 2 ^ (Z.log2 M - 52)) in *.
  set (rounded := roundEven M (Z.log2 M - 52) * unit) in *.
  lia.
Qed.

Lemma randomIndex_lt r n :
  unitInterval r → (0 < n)%nat → (randomIndex r n < n)%nat.
Proof.
  intros [Hr _]%unitInterval_ulps Hn. unfold randomIndex.
  assert (0 ≤ ulps r * Z.of_nat n) as Hpos by nia.
  pose proof (binary64_near _ Hpos) as [Hlow Hhigh].
  assert (ulps r * Z.of_nat n ≤ (2 ^ 1074 - 2 ^ 1021) * Z.of_nat n) as Hmax by nia.
  set (M := ulps r * Z.of_nat n) in *.
  assert (0 ≤ binary64 M / 2 ^ 1074 < Z.of_nat n); [|lia].
  split.
  - apply Z.div_pos; lia.
  - apply Z.div_lt_upper_bound; lia.
Qed.






(** At the end of every part the index is the one the kernel's binary64
    multiplication gives; [boundaryDraw] is among these draws. *)
Example randomIndex_kernel_binary64 :
  forallb (λ '(m, n),
             bool_decide (Z.of_nat (randomIndex (m # 9007199254740992) n)
                          = floatIndex m n))
          boundarySignificands = true
  ∧ (2456508887656634, 11%nat) ∈ boundarySignificands
  ∧ (boundaryDraw == 2456508887656634 # 9007199254740992)%Q.
Proof.
  split; [vm_compute; reflexivity|]. split; [|reflexivity].
  apply list_elem_of_In. vm_compute. tauto.
Qed.

(** [literal_0_9] is [9 / 10] as the kernel's binary64 division rounds it. *)
Example literal_0_9_kernel_binary64 :
  FloatOps.Prim2SF
    (PrimFloat.div (PrimFloat.of_uint63 (Uint63.of_Z 9))
                   (PrimFloat.of_uint63 (Uint63.of_Z 10)))
  = SpecFloat.S754_finite false (Z.to_pos (Qnum literal_0_9)) (-53)
  ∧ Z.pos (Qden literal_0_9) = 2 ^ 53.
Proof. split; vm_compute; reflexivity. Qed.


Lemma randomTile_cases r : randomTile r = 2 ∨ randomTile r = 4.
Proof. unfold randomTile. destruct (Qlt_le_dec r literal_0_9); auto. Qed.



End Random.

(** ** addNewTile *)

Section AddNewTile.

Lemma elem_of_emptyCellsFrom index currentGrid k :
  k ∈ emptyCellsFrom index currentGrid
  ↔ ∃ j, k = (index + j)%nat ∧ currentGrid !! j = Some 0.
Proof.
  revert index. induction currentGrid as [|cell rest IH]; intros index.
  - cbn. split; [by intros ?%elem_of_nil | by intros (? & _ & ?)].
  - cbn [emptyCellsFrom]. destruct (decide (cell = 0)) as [->|Hcell].
    + rewrite elem_of_cons, IH. split.
      * intros [->|(j & -> & Hj)]; [exists 0%nat | exists (S j)];
          (split; [lia | done]).
      * intros ([|j] & -> & Hj); [left; lia | right].
        exists j. split; [lia | done].
    + rewrite IH. split.
      * intros (j & -> & Hj). exists (S j). split; [lia | done].
      * intros ([|j] & -> & Hj); [cbn in Hj; congruence|].
        exists j. split; [lia | done].
Qed.

Lemma elem_of_emptyCells currentGrid k :
  k ∈ emptyCells currentGrid ↔ currentGrid !! k = Some 0.
Proof.
  unfold emptyCells. rewrite elem_of_emptyCellsFrom. split.
  - by intros (j & -> & Hj).
  - intros Hk. by exists k.
Qed.


Lemma emptyCells_length currentGrid :
  (length (emptyCells currentGrid) + length (tiles currentGrid))%nat
  = length currentGrid.
Proof.
  unfold emptyCells, tiles. generalize 0%nat.
  induction currentGrid as [|cell rest IH]; intros index; [done|].
  cbn [emptyCellsFrom]. rewrite filter_cons.
  destruct (decide (cell = 0)), (decide (cell ≠ 0)); try done;
    cbn [length]; rewrite <- (IH (S index)); lia.
Qed.

Lemma emptyCells_some currentGrid :
  0 ∈ currentGrid → (0 < length (emptyCells currentGrid))%nat.
Proof.
  intros (k & Hk)%list_elem_of_lookup.
  apply elem_of_emptyCells in Hk.
  destruct (emptyCells currentGrid); [by apply elem_of_nil in Hk | cbn; lia].
Qed.

Lemma emptyCells_none currentGrid :
  0 ∉ currentGrid → emptyCells currentGrid = [].
Proof.
  intros Hfull. destruct (emptyCells currentGrid) as [|k ?] eqn:Hempty; [done|].
  destruct Hfull. apply list_elem_of_lookup. exists k.
  apply elem_of_emptyCells. rewrite Hempty. apply list_elem_of_here.
Qed.

Lemma addNewTile_full currentGrid rIndex rValue :
  0 ∉ currentGrid → addNewTile currentGrid rIndex rValue = Some currentGrid.
Proof. intros Hfull. unfold addNewTile. by rewrite emptyCells_none. Qed.

Lemma addNewTile_spawn currentGrid rIndex rValue :
  0 ∈ currentGrid → unitInterval rIndex →
  ∃ k,
    emptyCells currentGrid
      !! randomIndex rIndex (length (emptyCells currentGrid)) = Some k
    ∧ currentGrid !! k = Some 0
    ∧ addNewTile currentGrid rIndex rValue
      = Some (<[k := randomTile rValue]> currentGrid).
Proof.
  intros Hzero%emptyCells_some Hr.
  destruct (lookup_lt_is_Some_2 (emptyCells currentGrid)
              (randomIndex rIndex (length (emptyCells currentGrid))))
    as [k Hk]; [by apply randomIndex_lt|].
  exists k. split; [done|]. split.
  - apply elem_of_emptyCells, list_elem_of_lookup. by exists (randomIndex rIndex (length (emptyCells currentGrid))).
  - unfold addNewTile. cbn zeta.
    rewrite decide_True by done. by rewrite Hk.
Qed.

(** Whatever is drawn, a grid returned by [addNewTile] is the argument or
    the argument with a tile written into an empty cell. *)
Lemma addNewTile_cases currentGrid rIndex rValue spawned :
  addNewTile currentGrid rIndex rValue = Some spawned →
  spawned = currentGrid
  ∨ ∃ k, currentGrid !! k = Some 0
         ∧ spawned = <[k := randomTile rValue]> currentGrid.
Proof.
  unfold addNewTile. cbn zeta.
  destruct (decide (0 < length (emptyCells currentGrid))%nat) as [_|_];
    [|intros [= <-]; by left].
  destruct (emptyCells currentGrid
              !! randomIndex rIndex (length (emptyCells currentGrid)))
    as [k|] eqn:Hk; cbn [mbind option_bind]; [|discriminate].
  intros [= <-]. right. exists k. split; [|done].
  by apply list_elem_of_lookup_2, elem_of_emptyCells in Hk.
Qed.

(** Writing a tile into an empty cell. *)
Lemma insert_empty_cell (currentGrid : list Z) k v :
  currentGrid !! k = Some 0 → v ≠ 0 →
  sumZ (<[k := v]> currentGrid) = sumZ currentGrid + v
  ∧ tiles (<[k := v]> currentGrid) ≡ₚ v :: tiles currentGrid
  ∧ length (<[k := v]> currentGrid) = length currentGrid.
Proof.
  intros Hk Hv.
  pose proof (lookup_lt_Some _ _ _ Hk) as Hlt.
  pose proof (take_drop_middle currentGrid k 0 Hk) as Hsplit.
  assert (length (take k currentGrid) = k) as Hpre by (rewrite length_take; lia).
  revert Hsplit Hpre.
  generalize (take k currentGrid) (drop (S k) currentGrid).
  intros before after <- <-.
  rewrite insert_app_r_alt, Nat.sub_diag by done. cbn [insert list_insert].
  rewrite !sumZ_app, !sumZ_cons, !tiles_app, !length_app. cbn [length].
  split; [lia|]. split; [|done].
  unfold tiles at 2 4. rewrite filter_cons_True, filter_cons_False by (cbn; lia).
  by rewrite Permutation_middle.
Qed.

End AddNewTile.

(** ** checkGameOver *)

Section CheckGameOver.

(** A loop that carries the early-return flag: the flag is set at the end
    exactly when it was set before or some iteration sets it. *)
Lemma forUpTo_returned (P : nat → Prop) (body : nat → bool → option bool) n :
  (∀ j returned, (j < n)%nat →
     ∃ r, body j returned = Some r ∧ (r = true ↔ returned = true ∨ P j)) →
  ∀ returned,
    ∃ r, forUpTo n body returned = Some r
         ∧ (r = true ↔ returned = true ∨ ∃ j, (j < n)%nat ∧ P j).
Proof.
  induction n as [|n IH]; intros Hbody returned.
  - exists returned. split; [done|]. split; [by left|].
    intros [?|(j & ? & _)]; [done | lia].
  - destruct (IH (λ j ret Hj, Hbody j ret (Nat.lt_lt_succ_r _ _ Hj)) returned)
      as (r1 & Hloop & Hr1).
    destruct (Hbody n r1 (Nat.lt_succ_diag_r n)) as (r & Hstep & Hr).
    exists r. split; [cbn [forUpTo]; by rewrite Hloop|].
    rewrite Hr, Hr1. split.
    + intros [[?|(j & ? & ?)]|?]; [by left | right; exists j | right; exists n];
        (split; [lia | done]).
    + intros [?|(j & Hj & ?)]; [by left; left|].
      destruct (decide (j = n)) as [->|]; [by right|].
      left; right. exists j. split; [lia | done].
Qed.

Lemma equalNeighbour_spec grid i j :
  length grid = CELL_COUNT → (i < GRID_SIZE)%nat → (j < GRID_SIZE)%nat →
  ∃ r, equalNeighbour grid i j = Some r
       ∧ (r = true ↔
          ((j + 1 < GRID_SIZE)%nat ∧ cellAt grid i j = cellAt grid i (j + 1))
          ∨ ((i + 1 < GRID_SIZE)%nat ∧ cellAt grid i j = cellAt grid (i + 1) j)).
Proof.
  intros Hlen Hi Hj.
  destruct (grid_cells grid Hlen)
    as (a0&a1&a2&a3&a4&a5&a6&a7&a8&a9&a10&a11&a12&a13&a14&a15&->).
  unfold GRID_SIZE in *.
  assert (i = 0%nat ∨ i = 1%nat ∨ i = 2%nat ∨ i = 3%nat) as Hi' by lia.
  assert (j = 0%nat ∨ j = 1%nat ∨ j = 2%nat ∨ j = 3%nat) as Hj' by lia.
  destruct Hi' as [->|[->|[->| ->]]], Hj' as [->|[->|[->| ->]]];
    unfold equalNeighbour, cellAt, GRID_SIZE; cbn -[bool_decide];
    repeat case_bool_decide; eexists; (split; [reflexivity|]);
    split; intros; try done; try lia; try (left; split; [lia|done]);
    try (right; split; [lia|done]); intuition (try lia; try done).
Qed.

Lemma checkGameOver_spec grid :
  length grid = CELL_COUNT →
  ∃ over, checkGameOver grid = Some over
          ∧ (over = true ↔ (0 ∉ grid) ∧ noEqualAdjacent grid).
Proof.
  intros Hlen. unfold checkGameOver.
  destruct (decide (0 ∈ grid)) as [Hzero|Hfull].
  { exists false. split; [done|]. split; [done | by intros [? _]]. }
  set (P i j :=
    ((j + 1 < GRID_SIZE)%nat ∧ cellAt grid i j = cellAt grid i (j + 1))
    ∨ ((i + 1 < GRID_SIZE)%nat ∧ cellAt grid i j = cellAt grid (i + 1) j)).
  destruct (forUpTo_returned (λ i, ∃ j, (j < GRID_SIZE)%nat ∧ P i j)
    (λ i, forUpTo GRID_SIZE
       (λ j returned, if returned : bool then Some true
                      else equalNeighbour grid i j))
    GRID_SIZE) with (returned := false) as (r & -> & Hr).
  { intros i returned Hi. apply forUpTo_returned.
    intros j [|] Hj.
    - exists true. split; [done|]. split; [by left | done].
    - destruct (equalNeighbour_spec grid i j) as (r & -> & Hr); try done.
      exists r. split; [done|]. rewrite Hr. fold (P i j).
      split; [by right | by intros [?|?]]. }
  exists (negb r). split; [done|].
  rewrite negb_true_iff, <- not_true_iff_false, Hr.
  split.
  - intros Hnone. split; [done|]. intros i j Hi Hj.
    split; intros Hin Heq; apply Hnone; right; exists i; (split; [done|]);
      exists j; (split; [done|]); [by left | by right].
  - intros [_ Hadj] [?|(i & Hi & j & Hj & [[Hin Heq]|[Hin Heq]])]; [done| |];
      destruct (Hadj i j Hi Hj) as [Hright Hbelow]; [by apply Hright | by apply Hbelow].
Qed.

End CheckGameOver.

(** ** Tiles stay powers of two *)

Section CellOk.

Lemma tileValue_double val : tileValue val → tileValue (val * 2).
Proof.
  intros [k ->]. exists (S k).
  rewrite (Nat2Z.inj_succ (S k)), Z.pow_succ_r by lia. lia.
Qed.

Lemma tileValue_positive val : tileValue val → 0 < val.
Proof. intros [k ->]. apply Z.pow_pos_nonneg; lia. Qed.

Lemma cellOk_nonneg val : cellOk val → 0 ≤ val.
Proof. intros [->|?%tileValue_positive]; lia. Qed.

Lemma randomTile_tileValue r : tileValue (randomTile r).
Proof.
  destruct (randomTile_cases r) as [-> | ->]; [by exists 0%nat | by exists 1%nat].
Qed.

Lemma mergedCells_cellOk filtered :
  Forall cellOk filtered → Forall cellOk (mergedCells filtered).
Proof.
  induction filtered as [| x | x rest IH | x y rest Hne IH] using mergeLoop_ind;
    intros Hok.
  - done.
  - done.
  - rewrite mergedCells_merge.
    inversion_clear Hok as [|?? Hx Hok']. inversion_clear Hok' as [|?? _ Hrest].
    constructor; [|by apply IH].
    destruct Hx as [->|Hx]; [by left | right; by apply tileValue_double].
  - rewrite mergedCells_keep by done.
    inversion_clear Hok as [|?? Hx Hok'].
    constructor; [done | by apply IH].
Qed.

Lemma slide_cellOk row : Forall cellOk row → Forall cellOk (slide row).
Proof.
  intros Hok. rewrite slide_eq. apply Forall_app. split.
  - by apply mergedCells_cellOk, tiles_Forall.
  - apply Forall_replicate. by left.
Qed.

Lemma shiftedLine_cellOk direction line :
  Forall cellOk line → Forall cellOk (shiftedLine direction line).
Proof.
  intros Hok. unfold shiftedLine. destruct (towardEnd direction).
  - rewrite reverse_Permutation. apply slide_cellOk.
    by rewrite reverse_Permutation.
  - by apply slide_cellOk.
Qed.

End CellOk.

(** ** The slide/merge phase on the whole grid *)

Section MoveGrid.
Context (direction : Direction) (grid : list Z) (locals : Locals).
Hypothesis grid_length : length grid = CELL_COUNT.
Hypothesis pass : slideMerge direction grid = Some locals.

Lemma slideMerge_shape :
  length (newGrid locals) = CELL_COUNT
  ∧ linesOf direction (newGrid locals)
    = shiftedLine direction <$> linesOf direction grid
  ∧ points locals = sumZ (lineGain direction <$> linesOf direction grid)
  ∧ (moved locals = true ↔ newGrid locals ≠ grid).
Proof using grid_length pass.
  destruct (slideMerge_lines direction grid grid_length) as (locals' & Hpass & H).
  rewrite pass in Hpass. by injection Hpass as ->.
Qed.

Lemma slideMerge_length : length (newGrid locals) = CELL_COUNT.
Proof using grid_length pass. apply slideMerge_shape. Qed.

Lemma slideMerge_cells :
  newGrid locals ≡ₚ concat (shiftedLine direction <$> linesOf direction grid).
Proof using grid_length pass.
  destruct slideMerge_shape as (Hlen & <- & _).
  by rewrite linesOf_cells.
Qed.

Lemma slideMerge_sum : sumZ (newGrid locals) = sumZ grid.
Proof using grid_length pass.
  rewrite slideMerge_cells, sumZ_concat, <- list_fmap_compose.
  rewrite <- (linesOf_cells direction grid grid_length) at 2.
  rewrite sumZ_concat. f_equal. apply list_fmap_ext.
  intros _ line _. apply shiftedLine_sum.
Qed.

Lemma slideMerge_Forall (P : Z → Prop) :
  (∀ line, Forall P line → Forall P (shiftedLine direction line)) →
  Forall P grid → Forall P (newGrid locals).
Proof using grid_length pass.
  intros Hline Hgrid.
  rewrite slideMerge_cells. apply Forall_concat, Forall_fmap.
  rewrite <- (linesOf_cells direction grid grid_length) in Hgrid.
  apply Forall_concat in Hgrid.
  eapply Forall_impl; [exact Hgrid|]. exact Hline.
Qed.

Lemma slideMerge_unchanged :
  newGrid locals = grid → moved locals = false ∧ points locals = 0.
Proof using grid_length pass.
  intros Hsame. destruct slideMerge_shape as (_ & Hlines & -> & Hmoved).
  split.
  - destruct (moved locals); [|done]. exfalso. by apply Hmoved.
  - rewrite Hsame in Hlines.
    induction (linesOf direction grid) as [|line lines IH]; [done|].
    injection Hlines as Hline%eq_sym Hlines%eq_sym.
    cbn [fmap list_fmap]. fold (fmap (M:=list) (lineGain direction) lines).
    rewrite sumZ_cons, IH by done.
    by rewrite shiftedLine_unchanged_gain.
Qed.

Lemma slideMerge_moved_zero : moved locals = true → 0 ∈ newGrid locals.
Proof using grid_length pass.
  destruct slideMerge_shape as (Hlen & Hlines & _ & Hmoved).
  intros Hchanged%Hmoved.
  rewrite slideMerge_cells.
  assert (Exists (λ line, shiftedLine direction line ≠ line)
                 (linesOf direction grid)) as Hline.
  { apply (not_Forall_Exists (λ line, shiftedLine direction line = line)).
    intros Hall. apply Hchanged.
    apply (linesOf_inj direction); [done..|].
    rewrite Hlines. by apply fmap_fixed. }
  apply Exists_exists in Hline as (line & Hin & Hline).
  pose proof (linesOf_length direction grid) as Hlens.
  rewrite Forall_forall in Hlens.
  apply (elem_of_concat _ (shiftedLine direction line)).
  - apply shiftedLine_changed_zero; [by apply Hlens | done].
  - by apply list_elem_of_fmap_2.
Qed.

Lemma slideMerge_relocates :
  Forall (λ val, 0 ≤ val) grid → points locals = 0 →
  tiles (newGrid locals) ≡ₚ tiles grid.
Proof using grid_length pass.
  intros Hgrid Hpoints.
  destruct slideMerge_shape as (_ & _ & Hsum & _). rewrite Hpoints in Hsum.
  unfold tiles. rewrite slideMerge_cells.
  rewrite <- (linesOf_cells direction grid grid_length) at 2.
  rewrite <- (linesOf_cells direction grid grid_length) in Hgrid.
  apply Forall_concat in Hgrid.
  fold (tiles (concat (shiftedLine direction <$> linesOf direction grid))).
  fold (tiles (concat (linesOf direction grid))).
  rewrite !tiles_concat.
  induction Hgrid as [|line lines Hline Hlines IH]; [done|].
  cbn [fmap list_fmap concat] in *.
  rewrite sumZ_cons in Hsum.
  pose proof (lineGain_nonneg direction line Hline).
  assert (0 ≤ sumZ (lineGain direction <$> lines)) as Hrest.
  { clear -Hlines. induction Hlines as [|line' lines' Hline' _ IH']; [done|].
    cbn [fmap list_fmap]. rewrite sumZ_cons.
    pose proof (lineGain_nonneg direction line' Hline'). lia. }
  rewrite shiftedLine_relocates by (done || lia).
  f_equiv. apply IH. lia.
Qed.

End MoveGrid.

(** ** A grid without an empty cell or an equal adjacent pair *)

Section Blocked.

(** The two facts [noEqualAdjacent] gives at cell [(i, j)]. *)
Local Ltac in_grid := apply Nat.ltb_lt; reflexivity.

Local Ltac adjacent_at Hadj i j :=
  let Hright := fresh "Hright" in
  let Hbelow := fresh "Hbelow" in
  destruct (Hadj i j) as [Hright Hbelow]; [in_grid ..|];
  first [specialize (Hright ltac:(in_grid)) | clear Hright];
  first [specialize (Hbelow ltac:(in_grid)) | clear Hbelow].

Lemma blocked_lines direction grid :
  length grid = CELL_COUNT → 0 ∉ grid → noEqualAdjacent grid →
  Forall (λ line, (0 ∉ line) ∧ noEqualNeighbours line) (linesOf direction grid).
Proof.
  intros Hlen Hfull Hadj.
  destruct (grid_cells grid Hlen)
    as (a0&a1&a2&a3&a4&a5&a6&a7&a8&a9&a10&a11&a12&a13&a14&a15&->).
  adjacent_at Hadj 0%nat 0%nat. adjacent_at Hadj 0%nat 1%nat.
  adjacent_at Hadj 0%nat 2%nat. adjacent_at Hadj 0%nat 3%nat.
  adjacent_at Hadj 1%nat 0%nat. adjacent_at Hadj 1%nat 1%nat.
  adjacent_at Hadj 1%nat 2%nat. adjacent_at Hadj 1%nat 3%nat.
  adjacent_at Hadj 2%nat 0%nat. adjacent_at Hadj 2%nat 1%nat.
  adjacent_at Hadj 2%nat 2%nat. adjacent_at Hadj 2%nat 3%nat.
  adjacent_at Hadj 3%nat 0%nat. adjacent_at Hadj 3%nat 1%nat.
  adjacent_at Hadj 3%nat 2%nat. adjacent_at Hadj 3%nat 3%nat.
  clear Hadj Hlen. unfold cellAt in *. cbn in *.
  rewrite !not_elem_of_cons in Hfull.
  destruct direction; cbn; repeat constructor;
    rewrite ?not_elem_of_cons; try apply not_elem_of_nil; try tauto.
Qed.

Lemma slideMerge_blocked direction grid :
  length grid = CELL_COUNT → 0 ∉ grid → noEqualAdjacent grid →
  slideMerge direction grid
  = Some {| newGrid := grid; moved := false; points := 0 |}.
Proof.
  intros Hlen Hfull Hadj.
  destruct (slideMerge_lines direction grid Hlen)
    as (locals & Hpass & Hlen' & Hlines & _).
  assert (newGrid locals = grid) as Hsame.
  { apply (linesOf_inj direction); [done..|].
    rewrite Hlines.
    pose proof (blocked_lines direction grid Hlen Hfull Hadj) as Hblocked.
    pose proof (linesOf_length direction grid) as Hlens.
    apply fmap_fixed.
    eapply Forall_impl; [apply Forall_and; split; [exact Hblocked | exact Hlens]|].
    intros line [[Hnz Hneq] Hline]. by apply shiftedLine_blocked. }
  destruct (slideMerge_unchanged direction grid locals Hlen Hpass Hsame)
    as [Hmoved Hpoints].
  rewrite Hpass. destruct locals. cbn in *. by subst.
Qed.

End Blocked.

(** ** move on the component state *)

Section Move.

Lemma move_gameOver direction rIndex rValue st :
  gameOver st = true → move direction rIndex rValue st = Some st.
Proof. intros Hover. unfold move. by rewrite Hover. Qed.

Lemma move_unmoved direction rIndex rValue st locals :
  slideMerge direction (grid st) = Some locals → moved locals = false →
  move direction rIndex rValue st = Some st.
Proof.
  intros Hpass Hmoved. unfold move. destruct (gameOver st); [done|].
  rewrite Hpass. cbn. by rewrite Hmoved.
Qed.

(** A move that changes the grid: the tile goes to an empty cell of the
    shifted grid, the points are added to the score, and [gameOver] is
    what [checkGameOver] says of the grid with the new tile. *)
Lemma move_moved direction rIndex rValue st locals :
  length (grid st) = CELL_COUNT → unitInterval rIndex →
  gameOver st = false →
  slideMerge direction (grid st) = Some locals → moved locals = true →
  ∃ k over,
    emptyCells (newGrid locals)
      !! randomIndex rIndex (length (emptyCells (newGrid locals))) = Some k
    ∧ newGrid locals !! k = Some 0
    ∧ addNewTile (newGrid locals) rIndex rValue
      = Some (<[k := randomTile rValue]> (newGrid locals))
    ∧ checkGameOver (<[k := randomTile rValue]> (newGrid locals)) = Some over
    ∧ move direction rIndex rValue st
      = Some {| grid := <[k := randomTile rValue]> (newGrid locals);
                score := score st + points locals;
                bestScore := if decide (bestScore st < score st + points locals)
                             then score st + points locals else bestScore st;
                gameOver := over |}.
Proof.
  intros Hlen Hr Hover Hpass Hmoved.
  pose proof (slideMerge_moved_zero _ _ _ Hlen Hpass Hmoved) as Hzero.
  pose proof (slideMerge_length _ _ _ Hlen Hpass) as Hlen'.
  destruct (addNewTile_spawn (newGrid locals) rIndex rValue Hzero Hr)
    as (k & Hk & Hcell & Hspawn).
  destruct (checkGameOver_spec (<[k := randomTile rValue]> (newGrid locals)))
    as (over & Hcheck & _); [by rewrite length_insert|].
  exists k, over. repeat (split; [done|]).
  unfold move. rewrite Hover, Hpass. cbn. rewrite Hmoved, Hspawn. cbn.
  rewrite Hcheck. cbn. by destruct over.
Qed.


End Move.

(** ** initializeGrid *)

Section InitializeGrid.

Lemma zero_or_full (currentGrid : list Z) :
  0 ∈ currentGrid ∨ ((0 ∉ currentGrid) ∧ length (tiles currentGrid) = length currentGrid).
Proof.
  destruct (decide (0 ∈ currentGrid)) as [?|Hfull]; [by left | right].
  split; [done|]. unfold tiles.
  pose proof (emptyCells_length currentGrid) as Hcount.
  rewrite (emptyCells_none _ Hfull) in Hcount. done.
Qed.

(** What one call of [addNewTile] does to the number of tiles. *)
Lemma addNewTile_count currentGrid rIndex rValue :
  unitInterval rIndex →
  Forall (λ val, val = 2 ∨ val = 4) (tiles currentGrid) →
  ∃ spawned,
    addNewTile currentGrid rIndex rValue = Some spawned
    ∧ length spawned = length currentGrid
    ∧ length (tiles spawned)
      = Nat.min (length currentGrid) (S (length (tiles currentGrid)))
    ∧ Forall (λ val, val = 2 ∨ val = 4) (tiles spawned).
Proof.
  intros Hr Htiles.
  pose proof (length_filter (λ val, val ≠ 0) currentGrid) as Hle.
  fold (tiles currentGrid) in Hle.
  destruct (zero_or_full currentGrid) as [Hzero|[Hfull Hcount]].
  - destruct (addNewTile_spawn currentGrid rIndex rValue Hzero Hr)
      as (k & _ & Hk & ->).
    destruct (insert_empty_cell currentGrid k (randomTile rValue) Hk)
      as (_ & Hperm & Hlen).
    { destruct (randomTile_cases rValue) as [-> | ->]; lia. }
    eexists. split; [done|]. split; [done|].
    rewrite Hperm. cbn [length]. split.
    + pose proof (emptyCells_length currentGrid).
      pose proof (emptyCells_some currentGrid Hzero). lia.
    + constructor; [apply randomTile_cases | done].
  - exists currentGrid. split; [by apply addNewTile_full|].
    split; [done|]. split; [lia | done].
Qed.

(** Two spawns into a grid of zeros. *)
Lemma twoSpawns_tiles cellCount r1 r2 r3 r4 :
  unitInterval r1 → unitInterval r3 →
  ∃ fresh,
    (newGrid ← addNewTile (replicate cellCount 0) r1 r2;
     addNewTile newGrid r3 r4) = Some fresh
    ∧ length fresh = cellCount
    ∧ length (tiles fresh) = Nat.min cellCount 2
    ∧ Forall (λ val, val = 2 ∨ val = 4) (tiles fresh).
Proof.
  intros Hr1 Hr3.
  destruct (addNewTile_count (replicate cellCount 0) r1 r2 Hr1)
    as (first & -> & Hlen1 & Hcount1 & Htiles1).
  { by rewrite tiles_replicate_0. }
  rewrite tiles_replicate_0, length_replicate in Hcount1.
  rewrite length_replicate in Hlen1.
  destruct (addNewTile_count first r3 r4 Hr3 Htiles1)
    as (second & Hsecond & Hlen2 & Hcount2 & Htiles2).
  exists second. cbn. split; [done|]. split; [lia|]. split; [|done].
  rewrite Hcount2, Hcount1, Hlen1. cbn [length]. lia.
Qed.

Lemma two_or_four_cellOk (cells : list Z) :
  Forall (λ val, val = 2 ∨ val = 4) (tiles cells) → Forall cellOk cells.
Proof.
  rewrite !Forall_forall. intros Htiles x Hx.
  destruct (decide (x = 0)) as [->|Hnz]; [by left | right].
  destruct (Htiles x) as [-> | ->];
    [by apply list_elem_of_filter | by exists 0%nat | by exists 1%nat].
Qed.

End InitializeGrid.

(** ** Every reachable grid is well formed *)

Section Reachable.

Lemma move_cellOk direction rIndex rValue st st' :
  length (grid st) = CELL_COUNT → Forall cellOk (grid st) →
  unitInterval rIndex →
  move direction rIndex rValue st = Some st' →
  length (grid st') = CELL_COUNT ∧ Forall cellOk (grid st').
Proof.
  intros Hlen Hok Hr Hmove.
  destruct (gameOver st) eqn:Hover.
  { rewrite move_gameOver in Hmove by done. by injection Hmove as <-. }
  destruct (slideMerge_lines direction (grid st) Hlen) as (locals & Hpass & Hlen' & _).
  destruct (moved locals) eqn:Hmoved.
  - destruct (move_moved direction rIndex rValue st locals)
      as (k & over & _ & _ & _ & _ & Hst); try done.
    rewrite Hst in Hmove. injection Hmove as <-. cbn.
    split; [by rewrite length_insert|].
    apply Forall_insert; [|right; apply randomTile_tileValue].
    eapply slideMerge_Forall; [exact Hlen | exact Hpass | | exact Hok].
    apply shiftedLine_cellOk.
  - rewrite (move_unmoved _ _ _ _ _ Hpass Hmoved) in Hmove.
    by injection Hmove as <-.
Qed.

Lemma initializeGrid_cellOk r1 r2 r3 r4 fresh :
  unitInterval r1 → unitInterval r3 →
  initializeGrid r1 r2 r3 r4 = Some fresh →
  length fresh = CELL_COUNT ∧ Forall cellOk fresh.
Proof.
  intros Hr1 Hr3 Hinit.
  destruct (twoSpawns_tiles CELL_COUNT r1 r2 r3 r4 Hr1 Hr3)
    as (fresh' & Hfresh & Hlen & _ & Htiles).
  change (initializeGrid r1 r2 r3 r4 = Some fresh') in Hfresh.
  rewrite Hinit in Hfresh.
  injection Hfresh as <-. split; [done | by apply two_or_four_cellOk].
Qed.

Lemma reachable_wellFormed st :
  reachable st → length (grid st) = CELL_COUNT ∧ Forall cellOk (grid st).
Proof.
  induction 1 as [r1 r2 r3 r4 fresh best Hr1 _ Hr3 _ Hinit
                 | direction rIndex rValue st st' _ [IHlen IHok] Hr _ Hmove
                 | r1 r2 r3 r4 st st' _ _ Hr1 _ Hr3 _ Hnew].
  - cbn. exact (initializeGrid_cellOk r1 r2 r3 r4 fresh Hr1 Hr3 Hinit).
  - by eapply move_cellOk.
  - unfold newGame in Hnew.
    destruct (initializeGrid r1 r2 r3 r4) as [fresh|] eqn:Hinit; [|done].
    injection Hnew as <-. cbn.
    exact (initializeGrid_cellOk r1 r2 r3 r4 fresh Hr1 Hr3 Hinit).
Qed.

(** The cells of a reachable grid are never negative. *)
Lemma reachable_nonneg st : reachable st → Forall (λ val, 0 ≤ val) (grid st).
Proof.
  intros [_ Hok]%reachable_wellFormed.
  eapply Forall_impl; [exact Hok|]. apply cellOk_nonneg.
Qed.

Lemma initializeGrid_active r1 r2 r3 r4 fresh :
  unitInterval r1 → unitInterval r3 →
  initializeGrid r1 r2 r3 r4 = Some fresh →
  checkGameOver fresh = Some false.
Proof.
  intros Hr1 Hr3 Hinit.
  destruct (twoSpawns_tiles CELL_COUNT r1 r2 r3 r4 Hr1 Hr3)
    as (fresh' & Hfresh & Hlen & Hcount & _).
  change (initializeGrid r1 r2 r3 r4 = Some fresh') in Hfresh.
  rewrite Hinit in Hfresh.
  injection Hfresh as <-.
  destruct (zero_or_full fresh) as [Hzero|[_ Hfull]].
  - unfold checkGameOver. by rewrite decide_True.
  - rewrite Hfull, Hlen in Hcount. discriminate Hcount.
Qed.

(** On reachable states the [gameOver] flag is what [checkGameOver] says of
    the grid: the game is over exactly from the move whose spawn fills a
    grid without equal adjacent cells. *)
Lemma reachable_gameOver st :
  reachable st → checkGameOver (grid st) = Some (gameOver st).
Proof.
  induction 1 as [r1 r2 r3 r4 fresh best Hr1 _ Hr3 _ Hinit
                 | direction rIndex rValue st st' Hst IH Hr _ Hmove
                 | r1 r2 r3 r4 st st' _ _ Hr1 _ Hr3 _ Hnew].
  - cbn. exact (initializeGrid_active r1 r2 r3 r4 fresh Hr1 Hr3 Hinit).
  - destruct (reachable_wellFormed st Hst) as [Hlen _].
    destruct (gameOver st) eqn:Hover.
    { rewrite move_gameOver in Hmove by done. injection Hmove as <-.
      by rewrite Hover. }
    destruct (slideMerge_lines direction (grid st) Hlen) as (locals & Hpass & _).
    destruct (moved locals) eqn:Hmoved.
    + destruct (move_moved direction rIndex rValue st locals)
        as (k & over & _ & _ & _ & Hcheck & Hst'); try done.
      rewrite Hst' in Hmove. by injection Hmove as <-.
    + rewrite (move_unmoved _ _ _ _ _ Hpass Hmoved) in Hmove.
      injection Hmove as <-. by rewrite Hover.
  - unfold newGame in Hnew.
    destruct (initializeGrid r1 r2 r3 r4) as [fresh|] eqn:Hinit;
      cbn [mbind option_bind] in Hnew; [|discriminate Hnew].
    injection Hnew as <-. cbn.
    exact (initializeGrid_active r1 r2 r3 r4 fresh Hr1 Hr3 Hinit).
Qed.

End Reachable.

(** * The properties of the engine *)

(** What a move that shifted a cell spawned. *)
Lemma move_spawned direction rIndex rValue st st' locals :
  gameOver st = false →
  slideMerge direction (grid st) = Some locals →
  moved locals = true →
  move direction rIndex rValue st = Some st' →
  addNewTile (newGrid locals) rIndex rValue = Some (grid st').
Proof.
  intros Hover Hpass Hmoved. unfold move. rewrite Hover, Hpass.
  cbn [mbind option_bind]. rewrite Hmoved.
  destruct (addNewTile (newGrid locals) rIndex rValue) as [spawned|];
    cbn [mbind option_bind]; [|discriminate].
  destruct (checkGameOver spawned) as [over|];
    cbn [mbind option_bind]; [|discriminate].
  by intros [= <-].
Qed.

Lemma unitInterval_zero : unitInterval 0.
Proof. exists 0, 0. split; [lia|]. split; [lia|]. vm_compute. reflexivity. Qed.

Lemma unitInterval_half : unitInterval (1 # 2).
Proof. exists (2 ^ 52), 0. split; [lia|]. split; [lia|]. vm_compute. reflexivity. Qed.

(** ** Concrete scenarios *)

(** Scenario 1: the two leading tiles of the first row merge on 'left'. *)
Example scenario1_left :
  slideMerge Left [2; 2; 0; 0;  0; 0; 0; 0;  0; 0; 0; 0;  0; 0; 0; 0]
  = Some {| newGrid := [4; 0; 0; 0;  0; 0; 0; 0;  0; 0; 0; 0;  0; 0; 0; 0];
            moved := true; points := 4 |}.
Proof. vm_compute. reflexivity. Qed.

(** Scenario 2: the slide closes the gap before the merge. *)
Example scenario2_left :
  slideMerge Left [2; 0; 2; 0;  0; 0; 0; 0;  0; 0; 0; 0;  0; 0; 0; 0]
  = Some {| newGrid := [4; 0; 0; 0;  0; 0; 0; 0;  0; 0; 0; 0;  0; 0; 0; 0];
            moved := true; points := 4 |}.
Proof. vm_compute. reflexivity. Qed.

(** C1, as the spec states it, fails: on 'right' the row [4, 2, 2, 4] does
    not become [4, 4, 4, 0], neither before the spawn nor, whatever is drawn,
    after it. *)
Lemma scenario3_right_not_packed_left :
  (¬ ∃ locals,
       slideMerge Right scenario3 = Some locals
       ∧ rowOf (newGrid locals) 0 = [4; 4; 4; 0]
       ∧ points locals = 4 ∧ moved locals = true)
  ∧ (∀ rIndex rValue st',
       move Right rIndex rValue (mountState scenario3) = Some st' →
       rowOf (grid st') 0 ≠ [4; 4; 4; 0]).
Proof.
  split.
  - intros (locals & Hpass & Hrow & _).
    vm_compute in Hpass. injection Hpass as <-. vm_compute in Hrow. discriminate.
  - intros rIndex rValue st' Hmove.
    assert (slideMerge Right scenario3
            = Some {| newGrid := [0; 4; 4; 4; 0; 0; 0; 0; 0; 0; 0; 0; 0; 0; 0; 0];
                      moved := true; points := 4 |}) as Hpass
      by (vm_compute; reflexivity).
    pose proof (move_spawned Right rIndex rValue (mountState scenario3) st' _
                  eq_refl Hpass eq_refl Hmove) as Hspawn.
    cbn [newGrid] in Hspawn.
    apply addNewTile_cases in Hspawn as [Hsame|(k & Hk & Hnew)].
    + rewrite Hsame. vm_compute. discriminate.
    + rewrite Hnew. intros Hrow.
      assert (k ≠ 3%nat) as Hne by (intros ->; discriminate Hk).
      assert (rowOf (<[k:=randomTile rValue]>
                [0; 4; 4; 4; 0; 0; 0; 0; 0; 0; 0; 0; 0; 0; 0; 0]) 0 !! 3%nat
              = Some 4) as Hcell.
      { unfold rowOf, lineOf, cellIndex, GRID_SIZE.
        cbn [fmap list_fmap seq lookup list_lookup Nat.mul Nat.add].
        by rewrite list_lookup_total_insert_ne. }
      rewrite Hrow in Hcell. discriminate Hcell.
Qed.

(** C1, amended: on 'right' the row [4, 2, 2, 4] becomes [0, 4, 4, 4], the
    tiles packed against the right edge; the move earns 4 points and sets
    [moved]. *)
Theorem scenario3_right :
  ∃ locals,
    slideMerge Right scenario3 = Some locals
    ∧ newGrid locals = [0; 4; 4; 4;  0; 0; 0; 0;  0; 0; 0; 0;  0; 0; 0; 0]
    ∧ rowOf (newGrid locals) 0 = [0; 4; 4; 4]
    ∧ points locals = 4
    ∧ moved locals = true.
Proof.
  exists {| newGrid := [0; 4; 4; 4;  0; 0; 0; 0;  0; 0; 0; 0;  0; 0; 0; 0];
            moved := true; points := 4 |}.
  repeat split; vm_compute; reflexivity.
Qed.

(** ** Terminal detection *)

Example checkGameOver_checkerboard : checkGameOver checkerboard = Some true.
Proof. vm_compute. reflexivity. Qed.

Example checkGameOver_lastPairBoard : checkGameOver lastPairBoard = Some false.
Proof. vm_compute. reflexivity. Qed.

(** C2: on a grid of [CELL_COUNT] cells [checkGameOver] returns, and it
    returns [true] exactly when no cell is 0 and no cell equals its right
    neighbour or the cell below it.  Diagonal neighbours play no part. *)
Theorem checkGameOver_terminal (board : list Z) :
  length board = CELL_COUNT →
  ∃ over, checkGameOver board = Some over
          ∧ (over = true ↔ (0 ∉ board) ∧ noEqualAdjacent board).
Proof. apply checkGameOver_spec. Qed.

(** The checkerboard is full and has equal cells on every diagonal. *)
Lemma checkGameOver_terminal_witness :
  length checkerboard = CELL_COUNT
  ∧ cellAt checkerboard 0 0 = cellAt checkerboard 1 1
  ∧ ∃ over, checkGameOver checkerboard = Some over
            ∧ (over = true ↔ (0 ∉ checkerboard) ∧ noEqualAdjacent checkerboard).
Proof.
  split; [reflexivity|]. split; [reflexivity|].
  apply (checkGameOver_terminal checkerboard). reflexivity.
Defined.

(** ** Moves that change nothing *)

(** C3: when the slide/merge pass of a direction leaves every cell as it
    was, [moved] is false and no points are earned, and [move] leaves the
    whole state as it was: same grid, same score, no tile spawned. *)
Theorem noop_move (direction : Direction) (board : list Z) :
  length board = CELL_COUNT →
  newGrid <$> slideMerge direction board = Some board →
  slideMerge direction board
  = Some {| newGrid := board; moved := false; points := 0 |}
  ∧ ∀ rIndex rValue st,
      grid st = board → move direction rIndex rValue st = Some st.
Proof.
  intros Hlen Hsame.
  destruct (slideMerge direction board) as [locals|] eqn:Hpass; [|discriminate].
  injection Hsame as Hsame.
  destruct (slideMerge_unchanged direction board locals Hlen Hpass Hsame)
    as [Hmoved Hpoints].
  destruct locals as [cells flag pts]. cbn in Hsame, Hmoved, Hpoints. subst.
  split; [reflexivity|].
  intros rIndex rValue st Hgrid.
  apply (move_unmoved _ _ _ _ {| newGrid := grid st; moved := false; points := 0 |});
    [by rewrite Hgrid | reflexivity].
Qed.

Lemma noop_move_witness :
  length packedLeft = CELL_COUNT
  ∧ newGrid <$> slideMerge Left packedLeft = Some packedLeft
  ∧ slideMerge Left packedLeft
    = Some {| newGrid := packedLeft; moved := false; points := 0 |}
  ∧ ∀ rIndex rValue st,
      grid st = packedLeft → move Left rIndex rValue st = Some st.
Proof.
  split; [reflexivity|]. split; [vm_compute; reflexivity|].
  apply (noop_move Left packedLeft); [reflexivity | vm_compute; reflexivity].
Defined.

(** ** The spawn *)




(** ** Merge arithmetic *)

Example mergeLoop_2_2_4 : mergeLoop [2; 2; 4] [] 0 = ([4; 4], 4).
Proof. vm_compute. reflexivity. Qed.

Example mergeLoop_2_2_2_2 : mergeLoop [2; 2; 2; 2] [] 0 = ([4; 4], 8).
Proof. vm_compute. reflexivity. Qed.

Example mergeLoop_2_2_2 : mergeLoop [2; 2; 2] [] 0 = ([4; 2], 4).
Proof. vm_compute. reflexivity. Qed.

(** C5: when the scan reaches two equal cells [v], whatever was pushed and
    scored before, it pushes the single tile [v * 2] and adds [v * 2] to the
    points once; the rest of the result is the scan of the cells after the
    pair on their own, so the new tile is never compared with a later cell,
    not even with a following [v * 2].  The points of a move are the points
    of the scans of its lines, each counted once. *)
Theorem merge_arithmetic :
  (∀ (v : Z) (rest merged : list Z) (pts : Z),
     mergeLoop (v :: v :: rest) merged pts
     = (merged ++ v * 2 :: mergedCells rest, pts + v * 2 + mergePoints rest))
  ∧ (∀ (direction : Direction) (board : list Z),
       length board = CELL_COUNT →
       ∃ locals,
         slideMerge direction board = Some locals
         ∧ points locals
           = sumZ ((λ line, mergePoints
                              (tiles (if towardEnd direction
                                      then reverse line else line)))
                   <$> linesOf direction board)).
Proof.
  split.
  - intros v rest merged pts.
    rewrite mergeLoop_merge, mergeLoop_frame.
    by rewrite <- app_assoc.
  - intros direction board Hlen.
    destruct (slideMerge_lines direction board Hlen)
      as (locals & Hpass & _ & _ & Hpoints & _).
    exists locals. split; [exact Hpass|].
    rewrite Hpoints. f_equal. apply list_fmap_ext.
    intros _ line _. unfold lineGain.
    destruct (towardEnd direction); apply gain_eq.
Qed.

Lemma merge_arithmetic_witness :
  mergeLoop [2; 2; 4; 4] [8] 16 = ([8; 4; 8], 28)
  ∧ ∃ locals,
      slideMerge Right [2; 2; 4; 4;  0; 0; 0; 0;  0; 2; 0; 2;  0; 0; 0; 0]
      = Some locals
      ∧ points locals = 16.
Proof.
  destruct merge_arithmetic as [Hscan Hmove].
  split.
  - rewrite (Hscan 2 [4; 4] [8] 16). vm_compute. reflexivity.
  - destruct (Hmove Right [2; 2; 4; 4;  0; 0; 0; 0;  0; 2; 0; 2;  0; 0; 0; 0])
      as (locals & Hpass & Hpoints); [reflexivity|].
    exists locals. split; [exact Hpass|].
    rewrite Hpoints. vm_compute. reflexivity.
Defined.

(** ** Reachable grids *)

(** C6: every grid the component reaches from its mount, by any moves and
    new games, has [CELL_COUNT] cells, each 0 or a power of two from 2 on. *)
Theorem reachable_grid_wellFormed (st : GameState) :
  reachable st →
  length (grid st) = CELL_COUNT ∧ Forall cellOk (grid st).
Proof. apply reachable_wellFormed. Qed.

(** The state after a mount that draws [2, 2] at cells 0 and 1, then 'left'. *)
Lemma reachable_grid_wellFormed_witness :
  ∃ st,
    move Left 0 0 (mountState [2; 2; 0; 0;  0; 0; 0; 0;  0; 0; 0; 0;  0; 0; 0; 0])
    = Some st
    ∧ reachable st
    ∧ length (grid st) = CELL_COUNT ∧ Forall cellOk (grid st).
Proof.
  eexists. split; [vm_compute; reflexivity|].
  assert (reachable
            {| grid := [4; 2; 0; 0;  0; 0; 0; 0;  0; 0; 0; 0;  0; 0; 0; 0];
               score := 4; bestScore := 4; gameOver := false |}) as Hreach.
  { apply (reachable_move Left 0 0
             (mountState [2; 2; 0; 0;  0; 0; 0; 0;  0; 0; 0; 0;  0; 0; 0; 0]));
      [|exact unitInterval_zero | exact unitInterval_zero | vm_compute; reflexivity].
    apply (reachable_mount 0 0 0 0); try exact unitInterval_zero.
    vm_compute. reflexivity. }
  split; [exact Hreach|].
  exact (reachable_grid_wellFormed _ Hreach).
Defined.

(** ** Conservation of tiles and of the sum *)

(** C7: on a grid of non-negative cells, a pass that earns no points keeps
    the tiles: the non-zero cells after the pass are a rearrangement of the
    non-zero cells before it. *)
Theorem slide_only_conserves_tiles (direction : Direction) (board : list Z) :
  length board = CELL_COUNT →
  Forall (λ val, 0 ≤ val) board →
  ∃ locals,
    slideMerge direction board = Some locals
    ∧ (points locals = 0 → moved locals = true →
       tiles (newGrid locals) ≡ₚ tiles board).
Proof.
  intros Hlen Hnonneg.
  destruct (slideMerge_lines direction board Hlen) as (locals & Hpass & _).
  exists locals. split; [exact Hpass|].
  intros Hpoints _. by apply (slideMerge_relocates direction board locals).
Qed.

Lemma slide_only_conserves_tiles_witness :
  ∃ locals,
    slideMerge Left looseBoard = Some locals
    ∧ points locals = 0 ∧ moved locals = true
    ∧ tiles (newGrid locals) ≡ₚ tiles looseBoard.
Proof.
  destruct (slide_only_conserves_tiles Left looseBoard) as (locals & Hpass & Hkeep).
  - reflexivity.
  - unfold looseBoard. repeat constructor; discriminate.
  - exists locals.
    assert (Some locals
            = Some {| newGrid := [2; 4; 0; 0;  0; 0; 0; 0;  8; 0; 0; 0;  0; 0; 0; 0];
                      moved := true; points := 0 |}) as Heq
      by (rewrite <- Hpass; vm_compute; reflexivity).
    injection Heq as Heq.
    split; [exact Hpass|].
    assert (points locals = 0) as Hpoints by (rewrite Heq; reflexivity).
    assert (moved locals = true) as Hmoved by (rewrite Heq; reflexivity).
    split; [exact Hpoints|]. split; [exact Hmoved|].
    exact (Hkeep Hpoints Hmoved).
Defined.

(** C10: the pass keeps the sum of the cells.  When it set [moved], the grid
    [addNewTile] returns, which is the grid of the state after [move], sums to
    the sum before the move plus the spawned tile, 2 or 4; when it did not,
    the state and so the sum are as before. *)
Theorem move_sum (direction : Direction) (board : list Z) (rIndex rValue : Q) :
  length board = CELL_COUNT →
  unitInterval rIndex →
  ∃ locals,
    slideMerge direction board = Some locals
    ∧ sumZ (newGrid locals) = sumZ board
    ∧ (moved locals = true →
       (randomTile rValue = 2 ∨ randomTile rValue = 4)
       ∧ ∃ spawned,
           addNewTile (newGrid locals) rIndex rValue = Some spawned
           ∧ sumZ spawned = sumZ board + randomTile rValue
           ∧ ∀ st, grid st = board → gameOver st = false →
               grid <$> move direction rIndex rValue st = Some spawned)
    ∧ (moved locals = false →
       newGrid locals = board
       ∧ ∀ st, grid st = board → move direction rIndex rValue st = Some st).
Proof.
  intros Hlen Hr.
  destruct (slideMerge_lines direction board Hlen)
    as (locals & Hpass & _ & _ & _ & Hflag).
  exists locals. split; [exact Hpass|].
  pose proof (slideMerge_sum direction board locals Hlen Hpass) as Hsum.
  split; [exact Hsum|]. split.
  - intros Hmoved. split; [apply randomTile_cases|].
    pose proof (slideMerge_moved_zero _ _ _ Hlen Hpass Hmoved) as Hzero.
    destruct (addNewTile_spawn (newGrid locals) rIndex rValue Hzero Hr)
      as (k & Hk & Hcell & Hspawn).
    exists (<[k := randomTile rValue]> (newGrid locals)).
    split; [exact Hspawn|]. split.
    + destruct (insert_empty_cell (newGrid locals) k (randomTile rValue) Hcell)
        as (-> & _); [|by rewrite Hsum].
      destruct (randomTile_cases rValue) as [-> | ->]; lia.
    + intros st Hgrid Hover.
      destruct (move_moved direction rIndex rValue st locals)
        as (k' & over & Hk' & _ & _ & _ & ->);
        [by rewrite Hgrid | exact Hr | exact Hover | by rewrite Hgrid | exact Hmoved |].
      cbn [fmap option_fmap option_map grid].
      rewrite Hk in Hk'. by injection Hk' as <-.
  - intros Hmoved. split.
    + destruct (decide (newGrid locals = board)) as [|Hne]; [done|].
      apply Hflag in Hne. congruence.
    + intros st Hgrid. apply (move_unmoved _ _ _ _ locals); [by rewrite Hgrid | exact Hmoved].
Qed.

Lemma move_sum_witness :
  ∃ locals spawned,
    slideMerge Left looseBoard = Some locals
    ∧ sumZ (newGrid locals) = sumZ looseBoard
    ∧ moved locals = true
    ∧ addNewTile (newGrid locals) (1 # 2) (1 # 2) = Some spawned
    ∧ sumZ spawned = sumZ looseBoard + randomTile (1 # 2).
Proof.
  destruct (move_sum Left looseBoard (1 # 2) (1 # 2))
    as (locals & Hpass & Hsum & Hspawn & _).
  - reflexivity.
  - exact unitInterval_half.
  - assert (Some locals
            = Some {| newGrid := [2; 4; 0; 0;  0; 0; 0; 0;  8; 0; 0; 0;  0; 0; 0; 0];
                      moved := true; points := 0 |}) as Heq
      by (rewrite <- Hpass; vm_compute; reflexivity).
    injection Heq as Heq.
    assert (moved locals = true) as Hmoved by (rewrite Heq; reflexivity).
    destruct (Hspawn Hmoved) as (_ & spawned & Hadd & Htotal & _).
    exists locals, spawned.
    split; [exact Hpass|]. split; [exact Hsum|]. split; [exact Hmoved|].
    split; [exact Hadd | exact Htotal].
Defined.

(** ** Initialization and totality *)





(** ** The terminal state *)

(** C9: on a grid [checkGameOver] finds over, the pass of every direction
    returns the grid as it is, with [moved] false and no points, and [move]
    returns the state it was given: no cell, score or flag changes and no
    tile is spawned, whether or not the [gameOver] flag is already set.  So
    does any sequence of moves. *)
Theorem terminal_absorbing (board : list Z) :
  length board = CELL_COUNT →
  checkGameOver board = Some true →
  (∀ direction,
     slideMerge direction board
     = Some {| newGrid := board; moved := false; points := 0 |}
     ∧ ∀ rIndex rValue st,
         grid st = board → move direction rIndex rValue st = Some st)
  ∧ ∀ inputs st, grid st = board → playMoves inputs st = Some st.
Proof.
  intros Hlen Hover.
  destruct (checkGameOver_spec board Hlen) as (over & Hcheck & Hterminal).
  rewrite Hover in Hcheck. injection Hcheck as <-.
  destruct Hterminal as [[Hfull Hadj] _]; [reflexivity|].
  assert (∀ direction rIndex rValue st,
            grid st = board → move direction rIndex rValue st = Some st) as Hmove.
  { intros direction rIndex rValue st Hgrid.
    apply (move_unmoved _ _ _ _ {| newGrid := board; moved := false; points := 0 |});
      [|reflexivity].
    rewrite Hgrid. by apply slideMerge_blocked. }
  split.
  - intros direction. split; [by apply slideMerge_blocked|].
    apply Hmove.
  - intros inputs st Hgrid.
    induction inputs as [|[[direction rIndex] rValue] rest IH]; [reflexivity|].
    cbn [playMoves]. by rewrite Hmove.
Qed.

Lemma terminal_absorbing_witness :
  checkGameOver checkerboard = Some true
  ∧ (∀ direction,
       slideMerge direction checkerboard
       = Some {| newGrid := checkerboard; moved := false; points := 0 |}
       ∧ ∀ rIndex rValue st,
           grid st = checkerboard → move direction rIndex rValue st = Some st)
  ∧ ∀ inputs st, grid st = checkerboard → playMoves inputs st = Some st.
Proof.
  split; [vm_compute; reflexivity|].
  apply (terminal_absorbing checkerboard).
  - reflexivity.
  - vm_compute. reflexivity.
Defined.

(** * Further properties of the engine *)

(** ** Lines after a move *)

Section PackedLines.

Lemma mergedCells_fixed filtered :
  mergedCells filtered = filtered → noEqualNeighbours filtered.
Proof.
  induction filtered as [| x | x rest IH | x y rest Hne IH] using mergeLoop_ind.
  - done.
  - done.
  - rewrite mergedCells_merge. intros Heq.
    pose proof (mergedCells_length rest) as Hlen.
    apply (f_equal length) in Heq. cbn in Heq. lia.
  - rewrite mergedCells_keep by done. intros [= Heq].
    split; [done | by apply IH].
Qed.

Lemma mergedCells_half filtered :
  (length filtered ≤ 2 * length (mergedCells filtered))%nat.
Proof.
  induction filtered as [| x | x rest IH | x y rest Hne IH] using mergeLoop_ind.
  - done.
  - cbn. lia.
  - rewrite mergedCells_merge. cbn. lia.
  - rewrite mergedCells_keep by done. cbn in *. lia.
Qed.

Lemma mergedCells_shorter filtered :
  ¬ noEqualNeighbours filtered →
  (length (mergedCells filtered) < length filtered)%nat.
Proof.
  intros Hpair.
  pose proof (mergedCells_length filtered) as Hle.
  destruct (decide (length (mergedCells filtered) = length filtered)) as [Hfull|]; [|lia].
  destruct Hpair. apply mergedCells_fixed. by apply mergedCells_full.
Qed.

Lemma slide_packed row : length row = GRID_SIZE → packed (slide row).
Proof.
  intros Hlen. unfold packed.
  rewrite slide_tiles, (slide_length row Hlen).
  by rewrite slide_eq at 1.
Qed.

(** The rows [moveRow] returns unchanged. *)
Lemma slide_fixed row :
  length row = GRID_SIZE →
  slide row = row ↔ packed row ∧ noEqualNeighbours (tiles row).
Proof.
  intros Hlen. split.
  - intros Hsame. split.
    + rewrite <- Hsame. by apply slide_packed.
    + apply mergedCells_fixed. by rewrite <- slide_tiles, Hsame.
  - intros [Hpacked Hneq].
    destruct (mergedCells_noEqualNeighbours (tiles row) Hneq) as [Hcopy _].
    rewrite slide_eq, Hcopy. unfold packed in Hpacked.
    rewrite Hlen in Hpacked. by symmetry.
Qed.

Lemma shiftedLine_fixed direction line :
  length line = GRID_SIZE →
  shiftedLine direction line = line
  ↔ packed (fromEdge direction line)
    ∧ noEqualNeighbours (tiles (fromEdge direction line)).
Proof.
  intros Hlen. unfold shiftedLine, fromEdge.
  destruct (towardEnd direction); [|by apply slide_fixed].
  rewrite <- (slide_fixed (reverse line)) by (by rewrite length_reverse).
  split.
  - intros Hsame. by rewrite <- Hsame at 2; rewrite reverse_involutive.
  - intros ->. apply reverse_involutive.
Qed.

Lemma shiftedLine_packed direction line :
  length line = GRID_SIZE → packed (fromEdge direction (shiftedLine direction line)).
Proof.
  intros Hlen. unfold shiftedLine, fromEdge.
  destruct (towardEnd direction); [|by apply slide_packed].
  rewrite reverse_involutive. apply slide_packed. by rewrite length_reverse.
Qed.

Lemma shiftedLine_tiles_half direction line :
  (length (tiles line) ≤ 2 * length (tiles (shiftedLine direction line)))%nat.
Proof.
  unfold shiftedLine. destruct (towardEnd direction).
  - rewrite tiles_reverse, length_reverse, slide_tiles, tiles_reverse.
    pose proof (mergedCells_half (reverse (tiles line))) as Hhalf.
    by rewrite length_reverse in Hhalf.
  - rewrite slide_tiles. apply mergedCells_half.
Qed.

End PackedLines.

(** ** Which moves change the grid *)

Section MovedLines.

Lemma fmap_fixed_inv (f : list Z → list Z) (lines : list (list Z)) :
  f <$> lines = lines → Forall (λ line, f line = line) lines.
Proof.
  induction lines as [|line lines IH]; [done|].
  cbn [fmap list_fmap]. intros [= Hline Hlines].
  constructor; [done | by apply IH].
Qed.

(** [moved] stays false exactly when [moveRow] returns every line as it is. *)
Lemma slideMerge_unmoved_lines direction board locals :
  length board = CELL_COUNT →
  slideMerge direction board = Some locals →
  moved locals = false
  ↔ Forall (λ line, shiftedLine direction line = line) (linesOf direction board).
Proof.
  intros Hlen Hpass.
  destruct (slideMerge_shape direction board locals Hlen Hpass)
    as (Hlen' & Hlines & _ & Hmoved).
  split.
  - intros Hflag. apply fmap_fixed_inv. rewrite <- Hlines.
    destruct (decide (newGrid locals = board)) as [->|Hne]; [done|].
    apply Hmoved in Hne. congruence.
  - intros Hfixed. destruct (moved locals) eqn:Hflag; [|done].
    destruct Hmoved as [Hne _]. destruct (Hne eq_refl).
    apply (linesOf_inj direction); [done..|].
    rewrite Hlines. by apply fmap_fixed.
Qed.

(** A line of four cells that [moveRow] leaves alone from both ends is
    empty, or full without equal neighbours. *)
Lemma line_stuck line :
  length line = GRID_SIZE →
  slide line = line → slide (reverse line) = reverse line →
  Forall (λ val, val = 0) line ∨ ((0 ∉ line) ∧ noEqualNeighbours line).
Proof.
  intros Hlen Hfwd Hbwd.
  apply slide_fixed in Hfwd as [Hpacked Hneq]; [|done].
  apply slide_fixed in Hbwd as [Hpacked' _]; [|by rewrite length_reverse].
  destruct (line_cells line Hlen) as (a & b & c & d & ->).
  unfold packed, tiles in Hpacked, Hpacked', Hneq.
  change (reverse [a; b; c; d]) with [d; c; b; a] in Hpacked'.
  rewrite !filter_cons, !filter_nil in Hpacked, Hpacked', Hneq.
  destruct (decide (a ≠ 0)) as [Ha|Ha%dec_stable],
           (decide (b ≠ 0)) as [Hb|Hb%dec_stable],
           (decide (c ≠ 0)) as [Hc|Hc%dec_stable],
           (decide (d ≠ 0)) as [Hd|Hd%dec_stable];
    cbn in Hpacked, Hpacked'; simplify_eq; try (by destruct Ha);
      try (by destruct Hb); try (by destruct Hc); try (by destruct Hd).
  - right. split; [|done].
    rewrite !not_elem_of_cons. repeat split; try done; apply not_elem_of_nil.
  - left. by repeat constructor.
Qed.

End MovedLines.

Section Stuck.

Lemma lines_stuck direction opposite board :
  linesOf opposite board = linesOf direction board →
  towardEnd direction = false → towardEnd opposite = true →
  Forall (λ line, shiftedLine direction line = line) (linesOf direction board) →
  Forall (λ line, shiftedLine opposite line = line) (linesOf opposite board) →
  Forall (λ line, Forall (λ val, val = 0) line
                  ∨ ((0 ∉ line) ∧ noEqualNeighbours line))
         (linesOf direction board).
Proof.
  intros -> Hfwd Hbwd Hdir Hopp.
  pose proof (linesOf_length direction board) as Hlens.
  rewrite Forall_forall in *. intros line Hin.
  specialize (Hdir line Hin). specialize (Hopp line Hin).
  unfold shiftedLine in Hdir, Hopp. rewrite Hfwd in Hdir. rewrite Hbwd in Hopp.
  apply line_stuck; [by apply Hlens | done |].
  by rewrite <- Hopp at 2; rewrite reverse_involutive.
Qed.

(** Rows and columns without equal neighbours leave no equal adjacent pair. *)
Lemma noEqualAdjacent_lines board :
  length board = CELL_COUNT →
  Forall noEqualNeighbours (linesOf Left board) →
  Forall noEqualNeighbours (linesOf Up board) →
  noEqualAdjacent board.
Proof.
  intros Hlen Hrows Hcols i j Hi Hj. unfold GRID_SIZE in Hi, Hj.
  assert (i = 0%nat ∨ i = 1%nat ∨ i = 2%nat ∨ i = 3%nat) as Hi' by lia.
  assert (j = 0%nat ∨ j = 1%nat ∨ j = 2%nat ∨ j = 3%nat) as Hj' by lia.
  clear Hi Hj.
  destruct (grid_cells board Hlen)
    as (a0&a1&a2&a3&a4&a5&a6&a7&a8&a9&a10&a11&a12&a13&a14&a15&->).
  clear Hlen. cbn in Hrows, Hcols.
  rewrite !Forall_cons in Hrows, Hcols.
  destruct Hrows as ((?&?&?&_) & (?&?&?&_) & (?&?&?&_) & (?&?&?&_) & _).
  destruct Hcols as ((?&?&?&_) & (?&?&?&_) & (?&?&?&_) & (?&?&?&_) & _).
  destruct Hi' as [->|[->|[->| ->]]], Hj' as [->|[->|[->| ->]]];
    unfold cellAt, GRID_SIZE; cbn; split; intros Hin;
    first [assumption | apply Nat.ltb_lt in Hin; discriminate Hin].
Qed.

(** A grid no direction changes is empty, or full without equal adjacent
    cells. *)
Lemma grid_stuck board :
  length board = CELL_COUNT →
  (∀ direction,
     Forall (λ line, shiftedLine direction line = line) (linesOf direction board)) →
  Forall (λ val, val = 0) board ∨ ((0 ∉ board) ∧ noEqualAdjacent board).
Proof.
  intros Hlen Hall.
  pose proof (lines_stuck Left Right board eq_refl eq_refl eq_refl
                (Hall Left) (Hall Right)) as Hrows.
  pose proof (lines_stuck Up Down board eq_refl eq_refl eq_refl
                (Hall Up) (Hall Down)) as Hcols.
  clear Hall.
  destruct (decide (0 ∈ board)) as [Hzero|Hfull].
  - left.
    destruct (grid_cells board Hlen)
      as (a0&a1&a2&a3&a4&a5&a6&a7&a8&a9&a10&a11&a12&a13&a14&a15&->).
    clear Hlen. cbn in Hrows, Hcols.
    rewrite !Forall_cons, !not_elem_of_cons in Hrows, Hcols.
    destruct Hrows as (R0 & _), Hcols as (C0 & C1 & C2 & C3 & _).
    destruct (decide (a0 = 0)) as [->|Ha0].
    + destruct R0 as [(_ & -> & -> & -> & _)|[(? & _) _]]; [|done].
      destruct C0 as [(_ & -> & -> & -> & _)|[(? & _) _]]; [|done].
      destruct C1 as [(_ & -> & -> & -> & _)|[(? & _) _]]; [|done].
      destruct C2 as [(_ & -> & -> & -> & _)|[(? & _) _]]; [|done].
      destruct C3 as [(_ & -> & -> & -> & _)|[(? & _) _]]; [|done].
      by repeat constructor.
    + exfalso.
      destruct R0 as [(? & _)|[(_ & ? & ? & ? & _) _]]; [done|].
      destruct C0 as [(? & _)|[(_ & ? & ? & ? & _) _]]; [done|].
      destruct C1 as [(? & _)|[(_ & ? & ? & ? & _) _]]; [done|].
      destruct C2 as [(? & _)|[(_ & ? & ? & ? & _) _]]; [done|].
      destruct C3 as [(? & _)|[(_ & ? & ? & ? & _) _]]; [done|].
      rewrite !elem_of_cons in Hzero.
      repeat (destruct Hzero as [Hzero|Hzero]; [congruence|]).
      by apply elem_of_nil in Hzero.
  - right. split; [done|].
    assert (∀ direction, Forall (λ line, 0 ∉ line) (linesOf direction board)) as Hlines.
    { intros direction. apply Forall_forall. intros line Hin Hzero.
      apply Hfull. rewrite <- (linesOf_cells direction board Hlen).
      by apply (elem_of_concat _ line). }
    apply noEqualAdjacent_lines; [done | |].
    + pose proof (linesOf_length Left board) as Hlens.
      specialize (Hlines Left). rewrite Forall_forall in *.
      intros line Hin. destruct (Hrows line Hin) as [Hempty|[_ Hneq]]; [|done].
      destruct (line_cells line (Hlens line Hin)) as (a & b & c & d & ->).
      destruct (Hlines _ Hin). apply Forall_cons in Hempty as [-> _].
      apply list_elem_of_here.
    + pose proof (linesOf_length Up board) as Hlens.
      specialize (Hlines Up). rewrite Forall_forall in *.
      intros line Hin. destruct (Hcols line Hin) as [Hempty|[_ Hneq]]; [|done].
      destruct (line_cells line (Hlens line Hin)) as (a & b & c & d & ->).
      destruct (Hlines _ Hin). apply Forall_cons in Hempty as [-> _].
      apply list_elem_of_here.
Qed.

Lemma tiles_empty cells : Forall (λ val, val = 0) cells → tiles cells = [].
Proof.
  induction 1 as [|x cells -> _ IH]; [done|].
  unfold tiles in *. by rewrite filter_cons_False by (cbn; lia).
Qed.

(** A grid with a tile that [checkGameOver] does not find over has a
    direction whose pass changes it. *)
Lemma active_grid_stuck_or_moves board :
  length board = CELL_COUNT →
  ¬ Forall (λ val, val = 0) board →
  checkGameOver board = Some false →
  ∃ direction locals,
    slideMerge direction board = Some locals ∧ moved locals = true.
Proof.
  intros Hlen Htile Hcheck.
  destruct (checkGameOver_spec board Hlen) as (over & Hcheck' & Hover).
  rewrite Hcheck in Hcheck'. injection Hcheck' as <-.
  assert (∀ direction, ∃ locals, slideMerge direction board = Some locals)
    as Hpass.
  { intros direction.
    destruct (slideMerge_lines direction board Hlen) as (locals & ? & _).
    by exists locals. }
  destruct (Hpass Left) as (left & Hleft), (Hpass Right) as (right & Hright),
           (Hpass Up) as (up & Hup), (Hpass Down) as (down & Hdown).
  destruct (moved left) eqn:Hl; [by exists Left, left|].
  destruct (moved right) eqn:Hr; [by exists Right, right|].
  destruct (moved up) eqn:Hu; [by exists Up, up|].
  destruct (moved down) eqn:Hd; [by exists Down, down|].
  exfalso.
  destruct (grid_stuck board Hlen) as [Hempty|Hterminal].
  - intros [| | |]; eapply slideMerge_unmoved_lines; eauto.
  - by apply Htile.
  - apply Hover in Hterminal. discriminate Hterminal.
Qed.

End Stuck.

(** ** Counting tiles *)

Section TileCount.

Lemma tiles_concat_length (lines : list (list Z)) :
  length (tiles (concat lines)) = sum_list (length ∘ tiles <$> lines).
Proof.
  induction lines as [|line lines IH]; [done|].
  cbn [concat fmap list_fmap sum_list sum_list_with].
  rewrite tiles_app, length_app. unfold sum_list in IH. by rewrite IH.
Qed.

Lemma tiles_linesOf_length direction board :
  length board = CELL_COUNT →
  length (tiles board) = sum_list (length ∘ tiles <$> linesOf direction board).
Proof.
  intros Hlen. rewrite <- tiles_concat_length.
  unfold tiles. by rewrite (linesOf_cells direction board Hlen).
Qed.

(** A pass merges tiles in pairs at most: at least half of them remain. *)
Lemma slideMerge_tiles_half direction board locals :
  length board = CELL_COUNT →
  slideMerge direction board = Some locals →
  (length (tiles board) ≤ 2 * length (tiles (newGrid locals)))%nat
  ∧ (length (tiles (newGrid locals)) ≤ length (tiles board))%nat.
Proof.
  intros Hlen Hpass.
  destruct (slideMerge_shape direction board locals Hlen Hpass)
    as (Hlen' & Hlines & _).
  rewrite (tiles_linesOf_length direction board Hlen).
  rewrite (tiles_linesOf_length direction (newGrid locals) Hlen'), Hlines.
  clear Hlines.
  induction (linesOf direction board) as [|line lines IH]; [done|].
  cbn [fmap list_fmap sum_list sum_list_with compose] in *.
  pose proof (shiftedLine_tiles_half direction line).
  assert (length (tiles (shiftedLine direction line)) ≤ length (tiles line))%nat.
  { unfold shiftedLine. destruct (towardEnd direction).
    - rewrite tiles_reverse, length_reverse, slide_tiles, tiles_reverse.
      pose proof (mergedCells_length (reverse (tiles line))) as Hle.
      by rewrite length_reverse in Hle.
    - rewrite slide_tiles. apply mergedCells_length. }
  unfold sum_list, id in *. lia.
Qed.

End TileCount.

(** ** The grid in a mirror and transposed *)

Section Symmetry.

Lemma mirror_length board : length board = CELL_COUNT → length (mirror board) = CELL_COUNT.
Proof.
  intros Hlen. destruct (grid_cells board Hlen)
    as (a0&a1&a2&a3&a4&a5&a6&a7&a8&a9&a10&a11&a12&a13&a14&a15&->).
  reflexivity.
Qed.

Lemma transpose_length board :
  length board = CELL_COUNT → length (transpose board) = CELL_COUNT.
Proof.
  intros Hlen. destruct (grid_cells board Hlen)
    as (a0&a1&a2&a3&a4&a5&a6&a7&a8&a9&a10&a11&a12&a13&a14&a15&->).
  reflexivity.
Qed.

Lemma linesOf_mirror board :
  length board = CELL_COUNT →
  linesOf Left (mirror board) = reverse <$> linesOf Left board.
Proof.
  intros Hlen. destruct (grid_cells board Hlen)
    as (a0&a1&a2&a3&a4&a5&a6&a7&a8&a9&a10&a11&a12&a13&a14&a15&->).
  reflexivity.
Qed.

Lemma linesOf_transpose board :
  length board = CELL_COUNT →
  linesOf Left (transpose board) = linesOf Up board
  ∧ linesOf Up (transpose board) = linesOf Left board.
Proof.
  intros Hlen. destruct (grid_cells board Hlen)
    as (a0&a1&a2&a3&a4&a5&a6&a7&a8&a9&a10&a11&a12&a13&a14&a15&->).
  split; reflexivity.
Qed.

Lemma mirror_involutive board :
  length board = CELL_COUNT → mirror (mirror board) = board.
Proof.
  intros Hlen. destruct (grid_cells board Hlen)
    as (a0&a1&a2&a3&a4&a5&a6&a7&a8&a9&a10&a11&a12&a13&a14&a15&->).
  reflexivity.
Qed.

Lemma transpose_involutive board :
  length board = CELL_COUNT → transpose (transpose board) = board.
Proof.
  intros Hlen. destruct (grid_cells board Hlen)
    as (a0&a1&a2&a3&a4&a5&a6&a7&a8&a9&a10&a11&a12&a13&a14&a15&->).
  reflexivity.
Qed.

(** Two passes whose lines correspond through a reflection [flip] of the
    grid give reflected grids, the same points and the same [moved]. *)
Lemma slideMerge_conjugate (flip : list Z → list Z) direction direction'
    (turn : list Z → list Z) board :
  length board = CELL_COUNT →
  (∀ cells, length cells = CELL_COUNT → length (flip cells) = CELL_COUNT) →
  (∀ cells, length cells = CELL_COUNT → flip (flip cells) = cells) →
  (∀ cells, length cells = CELL_COUNT →
     linesOf direction' (flip cells) = turn <$> linesOf direction cells) →
  (∀ line, shiftedLine direction' (turn line) = turn (shiftedLine direction line)) →
  (∀ line, lineGain direction' (turn line) = lineGain direction line) →
  ∃ locals locals',
    slideMerge direction board = Some locals
    ∧ slideMerge direction' (flip board) = Some locals'
    ∧ newGrid locals' = flip (newGrid locals)
    ∧ points locals' = points locals
    ∧ moved locals' = moved locals.
Proof.
  intros Hlen Hfliplen Hflip Hlines Hshift Hgain.
  destruct (slideMerge_lines direction board Hlen)
    as (locals & Hpass & Hlen1 & Hlines1 & Hpoints1 & Hmoved1).
  destruct (slideMerge_lines direction' (flip board) (Hfliplen _ Hlen))
    as (locals' & Hpass' & Hlen2 & Hlines2 & Hpoints2 & Hmoved2).
  exists locals, locals'. split; [done|]. split; [done|].
  assert (newGrid locals' = flip (newGrid locals)) as Hgrid.
  { apply (linesOf_inj direction'); [done | by apply Hfliplen |].
    rewrite Hlines2, !Hlines by done. rewrite Hlines1.
    rewrite <- !list_fmap_compose. apply list_fmap_ext.
    intros _ line _. apply Hshift. }
  split; [done|]. split.
  - rewrite Hpoints1, Hpoints2, Hlines by done.
    rewrite <- list_fmap_compose. f_equal. apply list_fmap_ext.
    intros _ line _. apply Hgain.
  - destruct (moved locals) eqn:Hm, (moved locals') eqn:Hm'; try done.
    + destruct Hmoved1 as [Hne _]. destruct (Hne eq_refl).
      destruct (decide (newGrid locals' = flip board)) as [Heq|Hne'].
      * rewrite Hgrid in Heq. apply (f_equal flip) in Heq.
        by rewrite !Hflip in Heq.
      * apply Hmoved2 in Hne'. congruence.
    + destruct Hmoved2 as [Hne _]. destruct (Hne eq_refl).
      destruct (decide (newGrid locals = board)) as [Heq|Hne'].
      * by rewrite Hgrid, Heq.
      * apply Hmoved1 in Hne'. congruence.
Qed.

End Symmetry.

(** ** Points of a pass *)

Section Points.

Lemma mergePoints_tiles filtered :
  Forall tileValue filtered → 0 ≤ mergePoints filtered ∧ (4 | mergePoints filtered).
Proof.
  induction filtered as [| x | x rest IH | x y rest Hne IH] using mergeLoop_ind;
    intros Hok.
  - split; [done | apply Z.divide_0_r].
  - split; [done | apply Z.divide_0_r].
  - rewrite mergePoints_merge.
    inversion_clear Hok as [|?? Hx Hok']. inversion_clear Hok' as [|?? _ Hrest].
    destruct (IH Hrest) as [Hpos Hdiv].
    pose proof (tileValue_positive x Hx).
    split; [lia|]. apply Z.divide_add_r; [|done].
    destruct Hx as [k ->]. exists (2 ^ Z.of_nat k).
    rewrite Nat2Z.inj_succ, Z.pow_succ_r by lia. lia.
  - rewrite mergePoints_keep by done.
    inversion_clear Hok as [|?? _ Hok']. by apply IH.
Qed.

Lemma tiles_tileValue cells : Forall cellOk cells → Forall tileValue (tiles cells).
Proof.
  rewrite !Forall_forall. intros Hok x Hx.
  apply list_elem_of_filter in Hx as [Hnz Hx].
  by destruct (Hok x Hx).
Qed.

Lemma lineGain_cellOk direction line :
  Forall cellOk line →
  0 ≤ lineGain direction line ∧ (4 | lineGain direction line).
Proof.
  intros Hok. unfold lineGain. destruct (towardEnd direction);
    rewrite gain_eq; apply mergePoints_tiles, tiles_tileValue; [|done].
  by rewrite reverse_Permutation.
Qed.

Lemma slideMerge_points_cellOk direction board locals :
  length board = CELL_COUNT → Forall cellOk board →
  slideMerge direction board = Some locals →
  0 ≤ points locals ∧ (4 | points locals).
Proof.
  intros Hlen Hok Hpass.
  destruct (slideMerge_shape direction board locals Hlen Hpass)
    as (_ & _ & -> & _).
  rewrite <- (linesOf_cells direction board Hlen) in Hok.
  apply Forall_concat in Hok.
  induction Hok as [|line lines Hline _ IH].
  - split; [done | apply Z.divide_0_r].
  - cbn [fmap list_fmap]. rewrite sumZ_cons.
    destruct (lineGain_cellOk direction line Hline), IH.
    split; [lia | by apply Z.divide_add_r].
Qed.

Lemma slideMerge_points_nonneg direction board locals :
  length board = CELL_COUNT → Forall (λ val, 0 ≤ val) board →
  slideMerge direction board = Some locals →
  0 ≤ points locals.
Proof.
  intros Hlen Hok Hpass.
  destruct (slideMerge_shape direction board locals Hlen Hpass)
    as (_ & _ & -> & _).
  rewrite <- (linesOf_cells direction board Hlen) in Hok.
  apply Forall_concat in Hok.
  induction Hok as [|line lines Hline _ IH]; [done|].
  cbn [fmap list_fmap]. rewrite sumZ_cons.
  pose proof (lineGain_nonneg direction line Hline). lia.
Qed.

End Points.

(** ** Properties of a move *)

(** X1: after the slide/merge pass every line is packed toward the edge of
    the move: seen from that edge, its tiles come first and its empty cells
    last. *)
Theorem move_packs_lines (direction : Direction) (board : list Z) :
  length board = CELL_COUNT →
  ∃ locals,
    slideMerge direction board = Some locals
    ∧ Forall (λ line, packed (fromEdge direction line))
             (linesOf direction (newGrid locals)).
Proof.
  intros Hlen.
  destruct (slideMerge_lines direction board Hlen)
    as (locals & Hpass & _ & Hlines & _).
  exists locals. split; [done|].
  rewrite Hlines. apply Forall_fmap.
  eapply Forall_impl; [apply (linesOf_length direction board)|].
  intros line Hline. by apply shiftedLine_packed.
Qed.

Lemma move_packs_lines_witness :
  ∃ locals,
    slideMerge Down looseBoard = Some locals
    ∧ newGrid locals = [0; 0; 0; 0;  0; 0; 0; 0;  0; 0; 0; 0;  0; 2; 8; 4]
    ∧ Forall (λ line, packed (fromEdge Down line)) (linesOf Down (newGrid locals)).
Proof.
  destruct (move_packs_lines Down looseBoard) as (locals & Hpass & Hpacked);
    [reflexivity|].
  exists locals. split; [exact Hpass|]. split; [|exact Hpacked].
  assert (Some locals
          = Some {| newGrid := [0; 0; 0; 0;  0; 0; 0; 0;  0; 0; 0; 0;  0; 2; 8; 4];
                    moved := true; points := 0 |}) as Heq
    by (rewrite <- Hpass; vm_compute; reflexivity).
  injection Heq as ->. reflexivity.
Defined.

(** X2: a pass leaves [moved] false exactly when every line, seen from the
    edge of the move, is packed and has no two equal neighbouring tiles. *)
Theorem unmoved_iff_lines_blocked (direction : Direction) (board : list Z) :
  length board = CELL_COUNT →
  ∃ locals,
    slideMerge direction board = Some locals
    ∧ (moved locals = false
       ↔ Forall (λ line, packed (fromEdge direction line)
                         ∧ noEqualNeighbours (tiles (fromEdge direction line)))
                (linesOf direction board)).
Proof.
  intros Hlen.
  destruct (slideMerge_lines direction board Hlen) as (locals & Hpass & _).
  exists locals. split; [done|].
  rewrite (slideMerge_unmoved_lines direction board locals Hlen Hpass).
  pose proof (linesOf_length direction board) as Hlens.
  rewrite !Forall_forall in *. split; intros Hall line Hin.
  - apply shiftedLine_fixed; [by apply Hlens | by apply Hall].
  - apply shiftedLine_fixed; [by apply Hlens | by apply Hall].
Qed.

Lemma unmoved_iff_lines_blocked_witness :
  ∃ locals,
    slideMerge Left packedLeft = Some locals
    ∧ moved locals = false
    ∧ Forall (λ line, packed (fromEdge Left line)
                      ∧ noEqualNeighbours (tiles (fromEdge Left line)))
             (linesOf Left packedLeft).
Proof.
  destruct (unmoved_iff_lines_blocked Left packedLeft) as (locals & Hpass & Hiff);
    [reflexivity|].
  assert (Some locals
          = Some {| newGrid := packedLeft; moved := false; points := 0 |}) as Heq
    by (rewrite <- Hpass; vm_compute; reflexivity).
  injection Heq as Heq.
  assert (moved locals = false) as Hmoved by (rewrite Heq; reflexivity).
  exists locals. split; [exact Hpass|]. split; [exact Hmoved|].
  apply Hiff. exact Hmoved.
Defined.

(** X3: on a grid that holds a tile, [checkGameOver] answers false exactly
    when the pass of some direction sets [moved]: the game is over only when
    no move is left. *)
Theorem active_grid_has_move (board : list Z) :
  length board = CELL_COUNT →
  ¬ Forall (λ val, val = 0) board →
  checkGameOver board = Some false
  ↔ ∃ direction locals,
      slideMerge direction board = Some locals ∧ moved locals = true.
Proof.
  intros Hlen Htile.
  destruct (checkGameOver_spec board Hlen) as (over & Hcheck & Hover).
  rewrite Hcheck. split.
  - intros [= ->]. apply active_grid_stuck_or_moves; [done | done |].
    by rewrite Hcheck.
  - intros (direction & locals & Hpass & Hmoved).
    destruct over; [|done].
    destruct Hover as [[Hfull Hadj] _]; [done|].
    rewrite (slideMerge_blocked direction board Hlen Hfull Hadj) in Hpass.
    injection Hpass as <-. discriminate Hmoved.
Qed.

Lemma active_grid_has_move_witness :
  checkGameOver lastPairBoard = Some false
  ∧ ∃ direction locals,
      slideMerge direction lastPairBoard = Some locals ∧ moved locals = true.
Proof.
  split; [vm_compute; reflexivity|].
  apply (active_grid_has_move lastPairBoard).
  - reflexivity.
  - intros Hempty. apply Forall_cons in Hempty as [Hcell _]. discriminate Hcell.
  - vm_compute. reflexivity.
Defined.

(** X8: the four directions are one pass seen through reflections of the
    grid: 'right' is 'left' on the mirrored grid, 'up' is 'left' and 'down'
    is 'right' on the transposed grid, with the same points and the same
    [moved]. *)
Theorem move_symmetries (board : list Z) :
  length board = CELL_COUNT →
  (∃ locals locals',
     slideMerge Right board = Some locals
     ∧ slideMerge Left (mirror board) = Some locals'
     ∧ newGrid locals' = mirror (newGrid locals)
     ∧ points locals' = points locals ∧ moved locals' = moved locals)
  ∧ (∃ locals locals',
       slideMerge Up board = Some locals
       ∧ slideMerge Left (transpose board) = Some locals'
       ∧ newGrid locals' = transpose (newGrid locals)
       ∧ points locals' = points locals ∧ moved locals' = moved locals)
  ∧ (∃ locals locals',
       slideMerge Down board = Some locals
       ∧ slideMerge Right (transpose board) = Some locals'
       ∧ newGrid locals' = transpose (newGrid locals)
       ∧ points locals' = points locals ∧ moved locals' = moved locals).
Proof.
  intros Hlen. split; [|split].
  - apply (slideMerge_conjugate mirror Right Left reverse board Hlen).
    + apply mirror_length.
    + apply mirror_involutive.
    + apply linesOf_mirror.
    + intros line. unfold shiftedLine, towardEnd. by rewrite reverse_involutive.
    + intros line. reflexivity.
  - apply (slideMerge_conjugate transpose Up Left id board Hlen).
    + apply transpose_length.
    + apply transpose_involutive.
    + intros cells Hcells. rewrite list_fmap_id. by apply linesOf_transpose.
    + reflexivity.
    + reflexivity.
  - apply (slideMerge_conjugate transpose Down Right id board Hlen).
    + apply transpose_length.
    + apply transpose_involutive.
    + intros cells Hcells. rewrite list_fmap_id.
      change (linesOf Right (transpose cells)) with (linesOf Left (transpose cells)).
      change (linesOf Down cells) with (linesOf Up cells).
      by apply linesOf_transpose.
    + reflexivity.
    + reflexivity.
Qed.

Lemma move_symmetries_witness :
  ∃ locals locals',
    slideMerge Right scenario3 = Some locals
    ∧ slideMerge Left (mirror scenario3) = Some locals'
    ∧ newGrid locals' = mirror (newGrid locals)
    ∧ points locals' = points locals ∧ moved locals' = moved locals.
Proof.
  destruct (move_symmetries scenario3) as [Hmirror _]; [reflexivity|].
  exact Hmirror.
Defined.

(** ** Properties of the reachable states *)

Section ReachableMore.

Lemma move_tile_count direction rIndex rValue st st' :
  length (grid st) = CELL_COUNT → unitInterval rIndex →
  move direction rIndex rValue st = Some st' →
  (2 ≤ length (tiles (grid st)))%nat →
  (2 ≤ length (tiles (grid st')))%nat.
Proof.
  intros Hlen Hr Hmove Htwo.
  destruct (gameOver st) eqn:Hover.
  { rewrite move_gameOver in Hmove by done. by injection Hmove as <-. }
  destruct (slideMerge_lines direction (grid st) Hlen) as (locals & Hpass & _).
  destruct (moved locals) eqn:Hmoved.
  - destruct (move_moved direction rIndex rValue st locals)
      as (k & over & _ & Hcell & _ & _ & Hst); try done.
    rewrite Hst in Hmove. injection Hmove as <-. cbn [grid].
    destruct (insert_empty_cell (newGrid locals) k (randomTile rValue) Hcell)
      as (_ & -> & _).
    { destruct (randomTile_cases rValue) as [-> | ->]; lia. }
    destruct (slideMerge_tiles_half direction (grid st) locals Hlen Hpass).
    cbn [length]. lia.
  - rewrite (move_unmoved _ _ _ _ _ Hpass Hmoved) in Hmove.
    by injection Hmove as <-.
Qed.

Lemma reachable_two_tiles st : reachable st → (2 ≤ length (tiles (grid st)))%nat.
Proof.
  induction 1 as [r1 r2 r3 r4 fresh best Hr1 _ Hr3 _ Hinit
                 | direction rIndex rValue st st' Hst IH Hr _ Hmove
                 | r1 r2 r3 r4 st st' _ _ Hr1 _ Hr3 _ Hnew].
  - destruct (twoSpawns_tiles CELL_COUNT r1 r2 r3 r4 Hr1 Hr3)
      as (fresh' & Hfresh & _ & Hcount & _).
    change (initializeGrid r1 r2 r3 r4 = Some fresh') in Hfresh.
    rewrite Hinit in Hfresh.
    injection Hfresh as <-. cbn [grid]. by rewrite Hcount.
  - destruct (reachable_wellFormed st Hst) as [Hlen _].
    by apply (move_tile_count direction rIndex rValue st st').
  - unfold newGame in Hnew.
    destruct (initializeGrid r1 r2 r3 r4) as [fresh|] eqn:Hinit;
      cbn [mbind option_bind] in Hnew; [|discriminate Hnew].
    injection Hnew as <-. cbn [grid].
    destruct (twoSpawns_tiles CELL_COUNT r1 r2 r3 r4 Hr1 Hr3)
      as (fresh' & Hfresh & _ & Hcount & _).
    change (initializeGrid r1 r2 r3 r4 = Some fresh') in Hfresh.
    rewrite Hinit in Hfresh.
    injection Hfresh as <-. by rewrite Hcount.
Qed.

Lemma reachable_score st : reachable st → 0 ≤ score st ∧ (4 | score st).
Proof.
  induction 1 as [r1 r2 r3 r4 fresh best Hr1 _ Hr3 _ Hinit
                 | direction rIndex rValue st st' Hst [IHpos IHdiv] Hr _ Hmove
                 | r1 r2 r3 r4 st st' _ _ Hr1 _ Hr3 _ Hnew].
  - cbn. split; [done | apply Z.divide_0_r].
  - destruct (reachable_wellFormed st Hst) as [Hlen Hok].
    destruct (gameOver st) eqn:Hover.
    { rewrite move_gameOver in Hmove by done. by injection Hmove as <-. }
    destruct (slideMerge_lines direction (grid st) Hlen) as (locals & Hpass & _).
    destruct (moved locals) eqn:Hmoved.
    + destruct (move_moved direction rIndex rValue st locals)
        as (k & over & _ & _ & _ & _ & Hst'); try done.
      rewrite Hst' in Hmove. injection Hmove as <-. cbn [score].
      destruct (slideMerge_points_cellOk direction (grid st) locals Hlen Hok Hpass).
      split; [lia | by apply Z.divide_add_r].
    + rewrite (move_unmoved _ _ _ _ _ Hpass Hmoved) in Hmove.
      by injection Hmove as <-.
  - unfold newGame in Hnew.
    destruct (initializeGrid r1 r2 r3 r4) as [fresh|];
      cbn [mbind option_bind] in Hnew; [|discriminate Hnew].
    injection Hnew as <-. cbn. split; [done | apply Z.divide_0_r].
Qed.

End ReachableMore.

(** X4: from every reachable state whose [gameOver] flag is not set, some
    direction is a real move: whatever is drawn, [move] in that direction
    returns a state with another grid. *)
Theorem reachable_move_available (st : GameState) :
  reachable st → gameOver st = false →
  ∃ direction,
    ∀ rIndex rValue, unitInterval rIndex →
      ∃ st', move direction rIndex rValue st = Some st' ∧ grid st' ≠ grid st.
Proof.
  intros Hreach Hover.
  destruct (reachable_wellFormed st Hreach) as [Hlen _].
  pose proof (reachable_gameOver st Hreach) as Hcheck. rewrite Hover in Hcheck.
  pose proof (reachable_two_tiles st Hreach) as Htiles.
  destruct (active_grid_stuck_or_moves (grid st) Hlen) as (direction & locals & Hpass & Hmoved).
  - intros Hempty. rewrite (tiles_empty _ Hempty) in Htiles. cbn in Htiles. lia.
  - exact Hcheck.
  - exists direction. intros rIndex rValue Hr.
    destruct (move_moved direction rIndex rValue st locals)
      as (k & over & _ & Hcell & _ & _ & Hst); try done.
    eexists. split; [exact Hst|]. cbn [grid]. intros Hsame.
    destruct (insert_empty_cell (newGrid locals) k (randomTile rValue) Hcell)
      as (Hsum & _).
    { destruct (randomTile_cases rValue) as [-> | ->]; lia. }
    rewrite Hsame, (slideMerge_sum direction (grid st) locals Hlen Hpass) in Hsum.
    destruct (randomTile_cases rValue) as [Htile|Htile]; rewrite Htile in Hsum; lia.
Qed.

Lemma reachable_mount_two_twos :
  reachable (mountState twoTwos).
Proof.
  apply (reachable_mount 0 0 0 0); try exact unitInterval_zero.
  vm_compute. reflexivity.
Qed.

Lemma reachable_move_available_witness :
  ∃ direction,
    ∀ rIndex rValue, unitInterval rIndex →
      ∃ st',
        move direction rIndex rValue
          (mountState twoTwos)
        = Some st'
        ∧ grid st' ≠ twoTwos.
Proof.
  apply (reachable_move_available
           (mountState twoTwos)).
  - exact reachable_mount_two_twos.
  - reflexivity.
Defined.

(** X5: every reachable grid holds at least two tiles, so the board is never
    empty and never down to a single tile. *)
Theorem reachable_tile_count (st : GameState) :
  reachable st →
  (2 ≤ length (tiles (grid st)))%nat
  ∧ (length (tiles (grid st)) + length (emptyCells (grid st)))%nat = CELL_COUNT.
Proof.
  intros Hreach. split; [by apply reachable_two_tiles|].
  destruct (reachable_wellFormed st Hreach) as [<- _].
  pose proof (emptyCells_length (grid st)). lia.
Qed.

Lemma reachable_tile_count_witness :
  (2 ≤ length (tiles twoTwos))%nat
  ∧ (length (tiles twoTwos)
     + length (emptyCells twoTwos))%nat
    = CELL_COUNT.
Proof.
  exact (reachable_tile_count _ reachable_mount_two_twos).
Defined.

(** X6: a move never lowers the score or the best score, and after a move
    that changed the state the best score is at least the score. *)
Theorem move_score_monotone (direction : Direction) (rIndex rValue : Q)
    (st : GameState) :
  length (grid st) = CELL_COUNT →
  Forall (λ val, 0 ≤ val) (grid st) →
  unitInterval rIndex →
  ∃ st',
    move direction rIndex rValue st = Some st'
    ∧ score st ≤ score st'
    ∧ bestScore st ≤ bestScore st'
    ∧ (st' = st ∨ score st' ≤ bestScore st').
Proof.
  intros Hlen Hnonneg Hr.
  destruct (gameOver st) eqn:Hover.
  { exists st. rewrite move_gameOver by done. repeat split; try done. by left. }
  destruct (slideMerge_lines direction (grid st) Hlen) as (locals & Hpass & _).
  destruct (moved locals) eqn:Hmoved.
  - destruct (move_moved direction rIndex rValue st locals)
      as (k & over & _ & _ & _ & _ & Hst); try done.
    eexists. split; [exact Hst|]. cbn [score bestScore].
    pose proof (slideMerge_points_nonneg direction (grid st) locals Hlen Hnonneg Hpass).
    destruct (decide (bestScore st < score st + points locals)).
    + split; [lia|]. split; [lia|]. right. lia.
    + split; [lia|]. split; [lia|]. right. lia.
  - exists st. rewrite (move_unmoved _ _ _ _ _ Hpass Hmoved).
    repeat split; try done. by left.
Qed.

Lemma move_score_monotone_witness :
  ∃ st',
    move Left 0 0 (mountState twoTwos)
    = Some st'
    ∧ 0 ≤ score st' ∧ 0 ≤ bestScore st'
    ∧ (st' = mountState twoTwos
       ∨ score st' ≤ bestScore st').
Proof.
  apply (move_score_monotone Left 0 0
           (mountState twoTwos)).
  - reflexivity.
  - repeat constructor; discriminate.
  - exact unitInterval_zero.
Defined.

(** X7: the score of every reachable state is a non-negative multiple of 4:
    each merge of two tiles [v] adds [2 * v] and the smallest tile is 2. *)
Theorem reachable_score_multiple_of_four (st : GameState) :
  reachable st → 0 ≤ score st ∧ (4 | score st).
Proof. apply reachable_score. Qed.

(** The state after a mount with two 2s side by side and a move that merges
    them. *)
Lemma reachable_score_multiple_of_four_witness :
  ∃ st,
    move Left 0 0 (mountState twoTwos) = Some st
    ∧ score st = 4
    ∧ 0 ≤ score st ∧ (4 | score st).
Proof.
  assert (move Left 0 0 (mountState twoTwos)
          = Some {| grid := [4; 2; 0; 0;  0; 0; 0; 0;  0; 0; 0; 0;  0; 0; 0; 0];
                    score := 4; bestScore := 4; gameOver := false |}) as Hmove
    by (vm_compute; reflexivity).
  eexists. split; [exact Hmove|]. split; [reflexivity|].
  apply reachable_score_multiple_of_four.
  exact (reachable_move Left 0 0 _ _ reachable_mount_two_twos
           unitInterval_zero unitInterval_zero Hmove).
Defined.

(** X9: [addNewTile] never touches a tile and never changes the length of
    the grid: it returns a full grid as it is, and otherwise adds exactly one
    tile. *)
Theorem addNewTile_keeps_tiles (currentGrid : list Z) (rIndex rValue : Q) :
  unitInterval rIndex →
  ∃ spawned,
    addNewTile currentGrid rIndex rValue = Some spawned
    ∧ length spawned = length currentGrid
    ∧ (∀ k val, currentGrid !! k = Some val → val ≠ 0 → spawned !! k = Some val)
    ∧ ((0 ∉ currentGrid) → spawned = currentGrid)
    ∧ (0 ∈ currentGrid → length (tiles spawned) = S (length (tiles currentGrid))).
Proof.
  intros Hr.
  destruct (decide (0 ∈ currentGrid)) as [Hzero|Hfull].
  - destruct (addNewTile_spawn currentGrid rIndex rValue Hzero Hr)
      as (k & _ & Hk & ->).
    eexists. split; [done|].
    split; [by rewrite length_insert|]. split; [|split; [done|]].
    + intros k' val Hk' Hval. rewrite list_lookup_insert_ne; [done|].
      intros <-. rewrite Hk in Hk'. by injection Hk' as <-.
    + intros _.
      destruct (insert_empty_cell currentGrid k (randomTile rValue) Hk)
        as (_ & -> & _); [|done].
      destruct (randomTile_cases rValue) as [-> | ->]; lia.
  - exists currentGrid. split; [by apply addNewTile_full|].
    repeat split; done.
Qed.

Lemma addNewTile_keeps_tiles_witness :
  ∃ spawned,
    addNewTile checkerboard (1 # 2) (1 # 2) = Some spawned
    ∧ length spawned = length checkerboard
    ∧ (∀ k val, checkerboard !! k = Some val → val ≠ 0 → spawned !! k = Some val)
    ∧ ((0 ∉ checkerboard) → spawned = checkerboard)
    ∧ (0 ∈ checkerboard → length (tiles spawned) = S (length (tiles checkerboard))).
Proof.
  exact (addNewTile_keeps_tiles checkerboard (1 # 2) (1 # 2) unitInterval_half).
Defined.

(** X10: [newGame] works from every state, over or not: it returns a state
    with score 0, the [gameOver] flag cleared, the best score kept, and a
    grid of two tiles, each 2 or 4, that [checkGameOver] does not find over. *)
Theorem newGame_resets (r1 r2 r3 r4 : Q) (st : GameState) :
  unitInterval r1 → unitInterval r3 →
  ∃ st',
    newGame r1 r2 r3 r4 st = Some st'
    ∧ score st' = 0 ∧ gameOver st' = false ∧ bestScore st' = bestScore st
    ∧ length (grid st') = CELL_COUNT
    ∧ length (tiles (grid st')) = 2%nat
    ∧ Forall (λ val, val = 2 ∨ val = 4) (tiles (grid st'))
    ∧ checkGameOver (grid st') = Some false.
Proof.
  intros Hr1 Hr3.
  destruct (twoSpawns_tiles CELL_COUNT r1 r2 r3 r4 Hr1 Hr3)
    as (fresh & Hfresh & Hlen & Hcount & Htiles).
  change (initializeGrid r1 r2 r3 r4 = Some fresh) in Hfresh.
  exists {| grid := fresh; score := 0; bestScore := bestScore st;
            gameOver := false |}.
  unfold newGame. rewrite Hfresh. cbn.
  repeat split; try done.
  exact (initializeGrid_active r1 r2 r3 r4 fresh Hr1 Hr3 Hfresh).
Qed.

Lemma newGame_resets_witness :
  ∃ st',
    newGame 0 0 (1 # 2) (1 # 2)
      {| grid := checkerboard; score := 40; bestScore := 64; gameOver := true |}
    = Some st'
    ∧ score st' = 0 ∧ gameOver st' = false ∧ bestScore st' = 64
    ∧ length (grid st') = CELL_COUNT
    ∧ length (tiles (grid st')) = 2%nat
    ∧ Forall (λ val, val = 2 ∨ val = 4) (tiles (grid st'))
    ∧ checkGameOver (grid st') = Some false.
Proof.
  exact (newGame_resets 0 0 (1 # 2) (1 # 2)
           {| grid := checkerboard; score := 40; bestScore := 64; gameOver := true |}
           unitInterval_zero unitInterval_half).
Defined.

(** X11: on every reachable state the [gameOver] flag says what
    [checkGameOver] says of the grid, so the flag is set exactly when no
    direction changes the grid. *)
Theorem gameOver_flag_exact (st : GameState) :
  reachable st →
  checkGameOver (grid st) = Some (gameOver st)
  ∧ (gameOver st = false
     ↔ ∃ direction locals,
         slideMerge direction (grid st) = Some locals ∧ moved locals = true).
Proof.
  intros Hreach.
  pose proof (reachable_gameOver st Hreach) as Hcheck.
  split; [exact Hcheck|].
  destruct (reachable_wellFormed st Hreach) as [Hlen _].
  pose proof (reachable_two_tiles st Hreach) as Htiles.
  assert (¬ Forall (λ val, val = 0) (grid st)) as Htile.
  { intros Hempty. rewrite (tiles_empty _ Hempty) in Htiles. cbn in Htiles. lia. }
  split.
  - intros Hover. rewrite Hover in Hcheck.
    by apply active_grid_stuck_or_moves.
  - intros (direction & locals & Hpass & Hmoved).
    destruct (gameOver st); [|done].
    destruct (checkGameOver_spec (grid st) Hlen) as (over & Hcheck' & Hover).
    rewrite Hcheck in Hcheck'. injection Hcheck' as <-.
    destruct Hover as [[Hfull Hadj] _]; [done|].
    rewrite (slideMerge_blocked direction (grid st) Hlen Hfull Hadj) in Hpass.
    injection Hpass as <-. discriminate Hmoved.
Qed.

Lemma gameOver_flag_exact_witness :
  checkGameOver twoTwos = Some false
  ∧ (false = false
     ↔ ∃ direction locals,
         slideMerge direction twoTwos
         = Some locals ∧ moved locals = true).
Proof.
  exact (gameOver_flag_exact _ reachable_mount_two_twos).
Defined.

(** ** Touch input *)



(** X13: a touch that starts at client coordinate 0, on the left or the top
    edge, is dropped: however far the finger travels, [handleTouchEnd] sends
    nothing to [move] and leaves the reference as it is. *)
Theorem touch_from_edge_ignored (x y clientX clientY : Z) :
  x = 0 ∨ y = 0 →
  handleTouchEnd clientX clientY (handleTouchStart x y)
  = (None, handleTouchStart x y).
Proof.
  intros Hedge. unfold handleTouchEnd, handleTouchStart, falsy.
  cbn [startX startY].
  destruct Hedge as [-> | ->].
  - by rewrite bool_decide_eq_true_2.
  - rewrite (bool_decide_eq_true_2 (0 = 0)) by done. by rewrite orb_true_r.
Qed.

Lemma touch_from_edge_ignored_witness :
  handleTouchEnd 300 200 (handleTouchStart 0 200) = (None, handleTouchStart 0 200).
Proof. apply (touch_from_edge_ignored 0 200 300 200). by left. Defined.

(** X14: a touch is used once: [handleTouchEnd] clears the reference of a
    touch it has handled, and on the cleared reference it sends nothing to
    [move], whatever the coordinates. *)
Theorem touch_end_once (x y clientX clientY : Z) :
  x ≠ 0 → y ≠ 0 →
  let used := (handleTouchEnd clientX clientY (handleTouchStart x y)).2 in
  used = {| startX := None; startY := None |}
  ∧ ∀ clientX' clientY', handleTouchEnd clientX' clientY' used = (None, used).
Proof.
  intros Hx Hy used.
  assert (used = {| startX := None; startY := None |}) as ->.
  { subst used. unfold handleTouchEnd, handleTouchStart, falsy.
    cbn [startX startY]. by rewrite !bool_decide_eq_false_2. }
  split; reflexivity.
Qed.

Lemma touch_end_once_witness :
  (handleTouchEnd 180 110 (handleTouchStart 100 100)).2
  = {| startX := None; startY := None |}
  ∧ ∀ clientX' clientY',
      handleTouchEnd clientX' clientY'
        (handleTouchEnd 180 110 (handleTouchStart 100 100)).2
      = (None, (handleTouchEnd 180 110 (handleTouchStart 100 100)).2).
Proof. apply (touch_end_once 100 100 180 110); done. Defined.

(** ** Tile colours *)

Lemma cellOk_listed_or_large val :
  cellOk val →
  val ∈ [0; 2; 4; 8; 16; 32; 64; 128; 256; 512; 1024; 2048] ∨ 2048 < val.
Proof.
  intros [->|[k ->]]; [left; apply list_elem_of_here|].
  destruct (decide (k < 11)%nat) as [Hk|Hk].
  - left.
    do 11 (destruct k as [|k];
           [simpl (Z.pow _ _); rewrite !elem_of_cons; tauto|]).
    lia.
  - right. apply Z.lt_le_trans with (2 ^ 12); [done|].
    apply Z.pow_le_mono_r; lia.
Qed.

Lemma getTileColor_large val : 2048 < val → getTileColor val = "bg-purple-600".
Proof.
  intros Hval. unfold getTileColor.
  repeat (rewrite decide_False by lia). reflexivity.
Qed.

(** X15: on the values a cell can hold, the colour class tells the tiles up
    to 2048 apart, and every larger tile gets the one class
    'bg-purple-600'. *)
Theorem getTileColor_distinguishes (v w : Z) :
  cellOk v → cellOk w →
  getTileColor v = getTileColor w ↔ v = w ∨ (2048 < v ∧ 2048 < w).
Proof.
  intros Hv Hw. split.
  - destruct (cellOk_listed_or_large v Hv) as [Hv'|Hv'],
             (cellOk_listed_or_large w Hw) as [Hw'|Hw'].
    + rewrite !elem_of_cons in Hv', Hw'.
      repeat (destruct Hv' as [->|Hv']); try (by apply elem_of_nil in Hv');
        repeat (destruct Hw' as [->|Hw']); try (by apply elem_of_nil in Hw');
        intros Hcolor; first [by left | discriminate Hcolor].
    + rewrite (getTileColor_large w Hw').
      rewrite !elem_of_cons in Hv'.
      repeat (destruct Hv' as [->|Hv']); try (by apply elem_of_nil in Hv');
        intros Hcolor; discriminate Hcolor.
    + rewrite (getTileColor_large v Hv').
      rewrite !elem_of_cons in Hw'.
      repeat (destruct Hw' as [->|Hw']); try (by apply elem_of_nil in Hw');
        intros Hcolor; discriminate Hcolor.
    + intros _. by right.
  - intros [->|[Hv' Hw']]; [done|].
    by rewrite !getTileColor_large.
Qed.

Lemma getTileColor_distinguishes_witness :
  (getTileColor 4096 = getTileColor 8192 ↔ 4096 = 8192 ∨ (2048 < 4096 ∧ 2048 < 8192))
  ∧ (getTileColor 2 = getTileColor 4 ↔ 2 = 4 ∨ (2048 < 2 ∧ 2048 < 4)).
Proof.
  split.
  - apply (getTileColor_distinguishes 4096 8192); right; [by exists 11%nat | by exists 12%nat].
  - apply (getTileColor_distinguishes 2 4); right; [by exists 0%nat | by exists 1%nat].
Defined.

(** * Properties of the score ledger *)

Module Game2048Proofs.
Import Game2048.

(** ** Loops over arrays *)

Lemma readAt_Some {A : Type} (a : list A) i x : a !! i = Some x → readAt a i = Return x.
Proof. intros Hx. unfold readAt. by rewrite Hx. Qed.

Lemma writeAt_lt {A : Type} (a : list A) i x :
  (i < length a)%nat → writeAt a i x = Return (<[i := x]> a).
Proof. intros Hi. unfold writeAt. by rewrite decide_True. Qed.

(** A loop that copies [count] elements of [src] from [start] on into a
    fresh array, through [f]. *)
Lemma copy_loop {A B : Type} (f : A → B) (src : list A) (start count : nat) (zero : B) :
  (start + count ≤ length src)%nat →
  loop count
    (λ i acc, andThen (readAt src (start + i)) (λ s, writeAt acc i (f s)))
    (replicate count zero)
  = Return (f <$> take count (drop start src)).
Proof.
  intros Hrange.
  assert (∀ done, (done ≤ count)%nat →
            loop done
              (λ i acc, andThen (readAt src (start + i)) (λ s, writeAt acc i (f s)))
              (replicate count zero)
            = Return ((f <$> take done (drop start src))
                      ++ replicate (count - done) zero)) as Hloop.
  { induction done as [|done IH]; intros Hdone.
    - cbn [loop]. by rewrite take_0, Nat.sub_0_r.
    - cbn [loop]. rewrite IH by lia. cbn [andThen].
      destruct (lookup_lt_is_Some_2 src (start + done)) as [s Hs]; [lia|].
      rewrite (readAt_Some _ _ _ Hs). cbn [andThen].
      assert (length (take done (drop start src)) = done) as Hlen
        by (rewrite length_take, length_drop; lia).
      rewrite writeAt_lt
        by (rewrite length_app, length_fmap, Hlen, length_replicate; lia).
      f_equal.
      rewrite insert_app_r_alt by (rewrite length_fmap, Hlen; lia).
      rewrite length_fmap, Hlen, Nat.sub_diag.
      replace (count - done)%nat with (S (count - S done)) by lia.
      cbn [replicate insert list_insert].
      rewrite (take_S_r _ _ s) by (by rewrite lookup_drop).
      rewrite fmap_app. cbn [fmap list_fmap]. by rewrite <- app_assoc. }
  rewrite Hloop by done. by rewrite Nat.sub_diag, app_nil_r.
Qed.

(** ** Exchanging two elements *)

Lemma insert_cons_Permutation {A : Type} (l : list A) j x y :
  l !! j = Some y → y :: <[j := x]> l ≡ₚ x :: l.
Proof.
  revert j. induction l as [|a l IH]; intros [|j] Hj; try done.
  - cbn in Hj. injection Hj as ->. cbn. apply perm_swap.
  - cbn in Hj. cbn [insert list_insert].
    rewrite (perm_swap a y), (IH j Hj). apply perm_swap.
Qed.

Lemma exchange_Permutation {A : Type} (l : list A) i j x y :
  i ≠ j → l !! i = Some x → l !! j = Some y →
  <[j := x]> (<[i := y]> l) ≡ₚ l.
Proof.
  revert i j. induction l as [|a l IH]; intros [|i] [|j] Hne Hi Hj; try done.
  - cbn in Hi, Hj. injection Hi as ->. cbn [insert list_insert].
    by apply insert_cons_Permutation.
  - cbn in Hi, Hj. injection Hj as ->. cbn [insert list_insert].
    by apply insert_cons_Permutation.
  - cbn in Hi, Hj. cbn [insert list_insert]. f_equiv. apply IH; [lia | done..].
Qed.

Lemma exchange_eq allEntries i j ei ej :
  allEntries !! i = Some ei → allEntries !! j = Some ej →
  exchange i j allEntries
  = Return (if decide (highScore ei < highScore ej)
            then <[j := ei]> (<[i := ej]> allEntries) else allEntries).
Proof.
  intros Hi Hj. unfold exchange.
  rewrite (readAt_Some _ _ _ Hi), (readAt_Some _ _ _ Hj). cbn [andThen].
  destruct (decide (highScore ei < highScore ej)); [|done].
  rewrite writeAt_lt by (by eapply lookup_lt_Some). cbn [andThen].
  rewrite writeAt_lt; [done|].
  rewrite length_insert. by eapply lookup_lt_Some.
Qed.

(** ** The sorting loops *)

Lemma descending_snoc keys z :
  descending keys → (∀ x, x ∈ keys → z ≤ x) → descending (keys ++ [z]).
Proof.
  induction keys as [|x [|y keys] IH]; intros Hdesc Hz.
  - done.
  - cbn. split; [|done]. apply Hz, list_elem_of_here.
  - destruct Hdesc as [Hyx Hdesc]. cbn [app descending]. split; [done|].
    apply IH; [done|]. intros w Hw. by apply Hz, list_elem_of_further.
Qed.

Lemma descending_head x keys y : descending (x :: keys) → y ∈ keys → y ≤ x.
Proof.
  revert x. induction keys as [|z keys IH]; intros x Hdesc Hy.
  - by apply elem_of_nil in Hy.
  - destruct Hdesc as [Hzx Hdesc].
    apply elem_of_cons in Hy as [->|Hy]; [done|].
    specialize (IH z Hdesc Hy). lia.
Qed.

Lemma descending_tail x keys : descending (x :: keys) → descending keys.
Proof. destruct keys; [done|]. by intros [_ ?]. Qed.

Lemma descending_app keys1 keys2 :
  descending (keys1 ++ keys2) →
  descending keys1 ∧ descending keys2
  ∧ ∀ x y, x ∈ keys1 → y ∈ keys2 → y ≤ x.
Proof.
  induction keys1 as [|x keys1 IH]; intros Hdesc.
  - split; [done|]. split; [done|]. intros x y Hx. by apply elem_of_nil in Hx.
  - pose proof (descending_tail _ _ Hdesc) as Htail.
    destruct (IH Htail) as (H1 & H2 & Hle).
    split; [|split; [done|]].
    + destruct keys1 as [|y keys1]; [done|].
      split; [|done]. by destruct Hdesc.
    + intros w y Hw Hy. apply elem_of_cons in Hw as [->|Hw]; [|by apply Hle].
      apply (descending_head _ _ _ Hdesc). apply elem_of_app. by right.
Qed.

(** The inner loop for a fixed [i]: cells before [i] are untouched, the
    cells from [i] on are rearranged, and [allEntries[i]] ends with a high
    score no lower than any cell the loop has visited. *)
Lemma inner_loop (start : list LeaderboardEntry) i count :
  (i + 1 + count ≤ length start)%nat →
  ∃ allEntries,
    loop count (λ k, exchange i (i + 1 + k)) start = Return allEntries
    ∧ length allEntries = length start
    ∧ take i allEntries = take i start
    ∧ drop i allEntries ≡ₚ drop i start
    ∧ ∀ k ek ei,
        (i < k < i + 1 + count)%nat →
        allEntries !! k = Some ek → allEntries !! i = Some ei →
        highScore ek ≤ highScore ei.
Proof.
  induction count as [|count IH]; intros Hrange.
  - exists start. repeat split; try done. intros k ek ei Hk. lia.
  - destruct IH as (a & Hloop & Hlen & Htake & Hdrop & Hmax); [lia|].
    cbn [loop]. rewrite Hloop. cbn [andThen].
    destruct (lookup_lt_is_Some_2 a i) as [ei Hi]; [lia|].
    destruct (lookup_lt_is_Some_2 a (i + 1 + count)) as [ej Hj]; [lia|].
    rewrite (exchange_eq a i (i + 1 + count) ei ej Hi Hj).
    destruct (decide (highScore ei < highScore ej)) as [Hlt|Hge].
    + eexists. split; [done|].
      split; [by rewrite !length_insert|].
      split; [by rewrite !take_insert_ge by lia|].
      split.
      { rewrite <- Hdrop, !drop_insert_ge by lia.
        apply exchange_Permutation; [lia | |].
        - by rewrite lookup_drop, Nat.sub_diag, Nat.add_0_r.
        - rewrite lookup_drop. by replace (i + (i + 1 + count - i))%nat
            with (i + 1 + count)%nat by lia. }
      intros k ek ei' Hk Hek Hei'.
      rewrite list_lookup_insert_ne in Hei' by lia.
      rewrite list_lookup_insert_eq in Hei' by lia. injection Hei' as <-.
      destruct (decide (k = i + 1 + count)%nat) as [->|Hne].
      * rewrite list_lookup_insert_eq in Hek by (rewrite length_insert; lia).
        injection Hek as <-. lia.
      * rewrite !list_lookup_insert_ne in Hek by lia.
        specialize (Hmax k ek ei ltac:(lia) Hek Hi). lia.
    + exists a. repeat split; try done.
      intros k ek ei' Hk Hek Hei'.
      rewrite Hi in Hei'. injection Hei' as <-.
      destruct (decide (k = i + 1 + count)%nat) as [->|Hne].
      * rewrite Hj in Hek. injection Hek as <-. lia.
      * apply (Hmax k ek ei); [lia | done | done].
Qed.

(** The outer loop after [sorted] rounds: the first [sorted] cells are in
    descending order and no later cell has a higher score than any of them. *)
Lemma outer_loop (start : list LeaderboardEntry) sorted :
  (sorted ≤ length start)%nat →
  ∃ allEntries,
    loop sorted
      (λ i, loop (length start - (i + 1)) (λ k, exchange i (i + 1 + k))) start
    = Return allEntries
    ∧ length allEntries = length start
    ∧ allEntries ≡ₚ start
    ∧ descending (highScore <$> take sorted allEntries)
    ∧ ∀ x y, x ∈ take sorted allEntries → y ∈ drop sorted allEntries →
        highScore y ≤ highScore x.
Proof.
  induction sorted as [|i IH]; intros Hrange.
  - exists start. repeat split; try done.
    intros x y Hx. rewrite take_0 in Hx. by apply elem_of_nil in Hx.
  - destruct IH as (a & Hloop & Hlen & Hperm & Hdesc & Hdom); [lia|].
    cbn [loop]. rewrite Hloop. cbn [andThen].
    destruct (inner_loop a i (length start - (i + 1)))
      as (a' & Hinner & Hlen' & Htake & Hdrop & Hmax); [lia|].
    rewrite Hinner. exists a'. split; [done|].
    split; [lia|]. split.
    { rewrite <- (take_drop i a'), Htake, Hdrop, take_drop. done. }
    destruct (lookup_lt_is_Some_2 a' i) as [z Hz]; [lia|].
    assert (z ∈ drop i a) as Hzin.
    { rewrite <- Hdrop. apply (list_elem_of_lookup_2 _ 0).
      by rewrite lookup_drop, Nat.add_0_r. }
    rewrite (take_S_r _ _ _ Hz), Htake. split.
    + rewrite fmap_app. apply descending_snoc; [done|].
      intros x (e & -> & He)%list_elem_of_fmap. by apply Hdom.
    + intros x y Hx Hy.
      apply list_elem_of_lookup in Hy as (m & Hy). rewrite lookup_drop in Hy.
      apply elem_of_app in Hx as [Hx|Hx].
      * apply Hdom; [done|]. rewrite <- Hdrop.
        apply (list_elem_of_lookup_2 _ (1 + m)). rewrite lookup_drop.
        by replace (i + (1 + m))%nat with (S i + m)%nat by lia.
      * apply list_elem_of_singleton in Hx as ->.
        apply (Hmax (S i + m)%nat y z); [|done..].
        apply lookup_lt_Some in Hy. lia.
Qed.

Lemma sortEntries_sorted (start : list LeaderboardEntry) :
  ∃ allEntries,
    sortEntries start = Return allEntries
    ∧ allEntries ≡ₚ start
    ∧ descending (highScore <$> allEntries).
Proof.
  destruct (outer_loop start (length start)) as (a & Hloop & Hlen & Hperm & Hdesc & _);
    [done|].
  exists a. split; [done|]. split; [done|].
  by rewrite take_ge in Hdesc by lia.
Qed.


(** ** getTopPlayers and getRecentScores *)

Lemma getTopPlayers_spec (_count : Z) (st : Storage) :
  0 ≤ _count →
  ∃ top rest,
    getTopPlayers _count st = Return top
    ∧ Z.of_nat (length top)
      = Z.min _count (Z.min (Z.of_nat (length (players st))) MAX_LEADERBOARD_SIZE)
    ∧ descending (highScore <$> top)
    ∧ top ++ rest ≡ₚ (λ p, getPlayerStats p st) <$> players st
    ∧ ∀ e r, e ∈ top → r ∈ rest → highScore r ≤ highScore e.
Proof.
  intros Hcount. unfold getTopPlayers. cbn zeta.
  set (count := if decide (MAX_LEADERBOARD_SIZE < _) then _ else _).
  assert (count = Z.min _count
                    (Z.min (Z.of_nat (length (players st))) MAX_LEADERBOARD_SIZE))
    as Hcount'.
  { subst count. unfold MAX_LEADERBOARD_SIZE. repeat case_decide; lia. }
  pose proof (copy_loop (λ p, getPlayerStats p st) (players st) 0
                (length (players st)) zeroEntry) as Hcopy.
  cbn [Nat.add] in Hcopy. rewrite Hcopy by done. clear Hcopy.
  rewrite drop_0, take_ge by done. cbn [andThen].
  destruct (sortEntries_sorted ((λ p, getPlayerStats p st) <$> players st))
    as (sorted & -> & Hperm & Hdesc).
  cbn [andThen].
  assert (length sorted = length (players st)) as Hlen
    by (by rewrite Hperm, length_fmap).
  pose proof (copy_loop id sorted 0 (Z.to_nat count) zeroEntry) as Hcopy.
  cbn [Nat.add] in Hcopy. unfold id in Hcopy at 1.
  rewrite Hcopy by (unfold MAX_LEADERBOARD_SIZE in *; lia).
  clear Hcopy. rewrite list_fmap_id, drop_0.
  exists (take (Z.to_nat count) sorted), (drop (Z.to_nat count) sorted).
  split; [done|].
  split; [rewrite length_take; unfold MAX_LEADERBOARD_SIZE in *; lia|].
  rewrite <- (take_drop (Z.to_nat count) sorted), fmap_app in Hdesc.
  destruct (descending_app _ _ Hdesc) as (Htop & _ & Hdom).
  split; [done|]. split; [by rewrite take_drop|].
  intros e r He Hr. apply Hdom; by apply list_elem_of_fmap_2.
Qed.

(** X16: [getTopPlayers] always returns.  It returns as many entries as
    asked for, but no more than there are players and no more than 100; they
    are statistics of players, in descending order of high score, and no
    player left out has a higher score than one returned. *)
Theorem getTopPlayers_sorted (_count : Z) (st : Storage) :
  0 ≤ _count →
  ∃ top rest,
    getTopPlayers _count st = Return top
    ∧ Z.of_nat (length top)
      = Z.min _count (Z.min (Z.of_nat (length (players st))) MAX_LEADERBOARD_SIZE)
    ∧ descending (highScore <$> top)
    ∧ top ++ rest ≡ₚ (λ p, getPlayerStats p st) <$> players st
    ∧ ∀ e r, e ∈ top → r ∈ rest → highScore r ≤ highScore e.
Proof. apply getTopPlayers_spec. Qed.

Example getTopPlayers_sample :
  getTopPlayers 1 sampleLedger
  = Return [{| player := 9; playerName := "bob"; highScore := 96;
               gamesPlayed := 1; totalScore := 96 |}].
Proof. vm_compute. reflexivity. Qed.

Lemma getTopPlayers_sorted_witness :
  ∃ top rest,
    getTopPlayers 1 sampleLedger = Return top
    ∧ Z.of_nat (length top)
      = Z.min 1 (Z.min (Z.of_nat (length (players sampleLedger))) MAX_LEADERBOARD_SIZE)
    ∧ descending (highScore <$> top)
    ∧ top ++ rest ≡ₚ (λ p, getPlayerStats p sampleLedger) <$> players sampleLedger
    ∧ ∀ e r, e ∈ top → r ∈ rest → highScore r ≤ highScore e.
Proof. apply (getTopPlayers_sorted 1 sampleLedger). lia. Defined.

(** X17: [getRecentScores] always returns, also when more scores are asked
    for than were submitted: it returns the last [_count] scores, or all of
    them, oldest first. *)
Theorem getRecentScores_last (_count : Z) (st : Storage) :
  0 ≤ _count →
  getRecentScores _count st
  = Return (drop (length (allScores st) - Z.to_nat _count) (allScores st)).
Proof.
  intros Hcount. unfold getRecentScores. cbn zeta.
  set (count := if decide (_ < _count) then _ else _).
  rewrite decide_False by (subst count; case_decide; lia).
  assert (Z.to_nat count = Nat.min (Z.to_nat _count) (length (allScores st)))
    as Hcount' by (subst count; case_decide; lia).
  rewrite Hcount'.
  replace (Z.to_nat (Z.of_nat (length (allScores st)) - count))
    with (length (allScores st) - Z.to_nat _count)%nat
    by (subst count; case_decide; lia).
  pose proof (copy_loop id (allScores st)
                (length (allScores st) - Z.to_nat _count)
                (Nat.min (Z.to_nat _count) (length (allScores st))) zeroScore)
    as Hcopy.
  unfold id in Hcopy at 1. rewrite Hcopy by lia.
  rewrite list_fmap_id, take_ge; [done|]. rewrite length_drop. lia.
Qed.

Lemma getRecentScores_last_witness :
  getRecentScores 2 sampleLedger = Return (drop 1 (allScores sampleLedger))
  ∧ getRecentScores 5 sampleLedger = Return (allScores sampleLedger).
Proof.
  split.
  - apply (getRecentScores_last 2 sampleLedger). lia.
  - apply (getRecentScores_last 5 sampleLedger). lia.
Defined.


(** ** The statistics and the log of scores *)

Lemma highest_snoc scores x : highest (scores ++ [x]) = Z.max (highest scores) x.
Proof.
  induction scores as [|y scores IH]; cbn; [lia|].
  unfold highest in IH. rewrite IH. lia.
Qed.

Lemma highest_nonneg scores : 0 ≤ highest scores.
Proof. induction scores as [|y scores IH]; cbn; [done|]. unfold highest in IH. lia. Qed.

Lemma highest_lt scores x :
  highest scores < x ↔ 0 < x ∧ ∀ y, y ∈ scores → y < x.
Proof.
  induction scores as [|y scores IH]; cbn.
  - split; [|by intros [? _]]. intros Hx. split; [done|].
    intros y Hy. by apply elem_of_nil in Hy.
  - unfold highest in IH. split.
    + intros Hmax. assert (foldr Z.max 0 scores < x) as Hrest by lia.
      apply IH in Hrest as [Hx Hall]. split; [done|].
      intros z [->|Hz]%elem_of_cons; [lia | by apply Hall].
    + intros [Hx Hall].
      assert (foldr Z.max 0 scores < x) as Hrest.
      { apply IH. split; [done|]. intros z Hz. by apply Hall, list_elem_of_further. }
      pose proof (Hall y (list_elem_of_here _ _)). lia.
Qed.

Lemma getPlayerStats_deployed p : getPlayerStats p deployed = zeroEntry.
Proof. unfold getPlayerStats, deployed. cbn. by rewrite lookup_empty. Qed.

(** What a call of [submitScore] that returns has done. *)
Lemma submitScore_Return sender now _score _playerName st st' events :
  submitScore sender now _score _playerName st = Return (st', events) →
  let entry := getPlayerStats sender st in
  let first := bool_decide (gamesPlayed entry = 0) in
  let higher := bool_decide (highScore entry < _score) in
  0 < _score ∧ _playerName ≠ ""
  ∧ gamesPlayed entry ≠ MAX_UINT256
  ∧ totalScore entry + _score ≤ MAX_UINT256
  ∧ allScores st'
    = allScores st ++ [{| scorePlayer := sender; score := _score;
                          timestamp := now; scorePlayerName := _playerName |}]
  ∧ players st' = (if first then players st ++ [sender] else players st)
  ∧ playerStats st'
    = <[sender :=
          {| player := if first then sender else player entry;
             playerName := if higher then _playerName
                           else if first then _playerName else playerName entry;
             highScore := if higher then _score else highScore entry;
             gamesPlayed := gamesPlayed entry + 1;
             totalScore := totalScore entry + _score |}]> (playerStats st)
  ∧ events
    = (if higher then [NewHighScore sender _playerName _score now] else [])
      ++ [GamePlayed sender _score now].
Proof.
  unfold submitScore. cbn zeta.
  destruct (decide (0 < _score)) as [Hscore|]; [|discriminate].
  destruct (decide (0 < String.length _playerName)%nat) as [Hname|]; [|discriminate].
  destruct (bool_decide (gamesPlayed (getPlayerStats sender st) = 0)) eqn:Hfirst;
    cbn [gamesPlayed totalScore highScore player playerName].
  all: destruct (decide (gamesPlayed (getPlayerStats sender st) = MAX_UINT256))
         as [|Hgames]; [discriminate|].
  all: destruct (decide (MAX_UINT256 < totalScore (getPlayerStats sender st) + _score))
         as [|Htotal]; [discriminate|].
  all: intros [= <- <-]; cbn [allScores players playerStats].
  all: split; [done|]; split; [intros ->; cbn in Hname; lia|]; split; [done|]; split; [lia|].
  all: split; [done|]; split; [done|]; split; [|done].
  all: by destruct (bool_decide (highScore (getPlayerStats sender st) < _score)).
Qed.

Lemma scoresOf_snoc p st s :
  filter (λ s, scorePlayer s = p) (allScores st ++ [s])
  = scoresOf p st ++ (if decide (scorePlayer s = p) then [s] else []).
Proof.
  unfold scoresOf. rewrite filter_app, filter_cons, filter_nil.
  by destruct (decide (scorePlayer s = p)).
Qed.

Lemma submitScore_consistent sender now _score _playerName st st' events :
  consistent st →
  submitScore sender now _score _playerName st = Return (st', events) →
  consistent st'.
Proof.
  intros (Hnodup & Hpos & Hstats) Hsubmit.
  apply submitScore_Return in Hsubmit
    as (Hscore & Hname & _ & _ & Hscores & Hplayers & Hmap & _).
  destruct (Hstats sender) as (Hin & Hgames & Htotal & Hhigh & Hentry).
  assert (players st' = players st ++ (if decide (sender ∈ players st)
                                       then [] else [sender])
          ∧ bool_decide (gamesPlayed (getPlayerStats sender st) = 0)
            = bool_decide (sender ∉ players st)) as [Hjoin Hfirst].
  { rewrite Hplayers. destruct (decide (sender ∈ players st)) as [Hold|Hnew].
    - rewrite (bool_decide_eq_false_2 (sender ∉ players st)) by tauto.
      rewrite bool_decide_eq_false_2, app_nil_r; [done|].
      rewrite Hgames. apply Hin in Hold. destruct (scoresOf sender st); [done|].
      cbn [length]. lia.
    - rewrite (bool_decide_eq_true_2 (sender ∉ players st)) by done.
      rewrite bool_decide_eq_true_2; [done|].
      rewrite Hgames. destruct (scoresOf sender st) eqn:Hnone; [done|].
      destruct Hnew. by apply Hin. }
  rewrite Hfirst in Hmap. clear Hplayers Hfirst.
  split; [|split].
  - rewrite Hjoin. destruct (decide (sender ∈ players st)) as [Hold|Hnew].
    + by rewrite app_nil_r.
    + apply NoDup_app. split; [done|]. split; [|apply NoDup_singleton].
      by intros x Hx ->%list_elem_of_singleton.
  - rewrite Hscores. intros s [Hs| ->%list_elem_of_singleton]%elem_of_app;
      [by apply Hpos | done].
  - intros p. cbv zeta.
    assert (scoresOf p st'
            = scoresOf p st
              ++ (if decide (sender = p)
                  then [{| scorePlayer := sender; score := _score;
                           timestamp := now; scorePlayerName := _playerName |}]
                  else [])) as Hof.
    { unfold scoresOf at 1. rewrite Hscores. apply scoresOf_snoc. }
    pose proof (f_equal (λ m, default zeroEntry (m !! p)) Hmap) as Hnew.
    cbn beta in Hnew.
    change (default zeroEntry (playerStats st' !! p))
      with (getPlayerStats p st') in Hnew.
    rewrite Hof, Hnew, Hjoin. clear Hof Hnew Hmap.
    destruct (decide (sender = p)) as [<-|Hne].
    + rewrite lookup_insert_eq.
      cbn [default from_option id gamesPlayed totalScore highScore player playerName].
      rewrite length_app, fmap_app, sumZ_app. cbn [length fmap list_fmap score].
      rewrite highest_snoc.
      rewrite Nat2Z.inj_add, <- Hgames, <- Htotal, <- Hhigh.
      split.
      { split; [by intros _ ?%app_eq_nil%proj2|]. intros _.
        apply elem_of_app. destruct (decide (sender ∈ players st)); [by left|].
        right. apply list_elem_of_here. }
      split; [lia|]. split; [rewrite sumZ_cons; unfold sumZ; cbn; lia|].
      split; [case_bool_decide; lia|].
      intros _. destruct (decide (sender ∈ players st)) as [Hold|Hfresh].
      * rewrite (bool_decide_eq_false_2 (sender ∉ players st)) by tauto.
        destruct (Hentry Hold) as (Hplayer & s & Hs & Hval & Hnm).
        split; [done|]. case_bool_decide.
        -- eexists. split; [apply elem_of_app; right; apply list_elem_of_here|]. done.
        -- exists s. split; [apply elem_of_app; by left | done].
      * rewrite (bool_decide_eq_true_2 (sender ∉ players st)) by done.
        split; [done|]. rewrite bool_decide_eq_true_2.
        -- eexists. split; [apply elem_of_app; right; apply list_elem_of_here|]. done.
        -- rewrite Hhigh. destruct (scoresOf sender st) eqn:Hnone; [done|].
           destruct Hfresh. by apply Hin.
    + rewrite lookup_insert_ne by done. rewrite app_nil_r.
      change (default zeroEntry (playerStats st !! p)) with (getPlayerStats p st).
      destruct (Hstats p) as (Hin' & Hgames' & Htotal' & Hhigh' & Hentry').
      assert (p ∈ players st ++ (if decide (sender ∈ players st) then [] else [sender])
              ↔ p ∈ players st) as Hsame.
      { destruct (decide (sender ∈ players st)); [by rewrite app_nil_r|].
        rewrite elem_of_app, list_elem_of_singleton.
        split; [intros [?| ->]; [done | by destruct Hne] | by left]. }
      rewrite Hsame. done.
Qed.

Lemma submitted_consistent st : submitted st → consistent st.
Proof.
  induction 1 as [|sender now _score _playerName st st' events Hst IH Hrange Hsubmit].
  - split; [constructor|]. split; [intros s Hs; by apply elem_of_nil in Hs|].
    intros p. rewrite getPlayerStats_deployed.
    change (scoresOf p deployed) with (@nil Score).
    cbn [players deployed]. cbv zeta.
    split; [split; [intros Hp; by apply elem_of_nil in Hp | done]|].
    do 3 (split; [reflexivity|]). intros Hp. by apply elem_of_nil in Hp.
  - by eapply submitScore_consistent.
Qed.

Lemma submitAll_submitted calls st st' :
  submitted st →
  Forall (λ call, 0 ≤ call.1.2 ≤ MAX_UINT256) calls →
  submitAll calls st = Return st' →
  submitted st'.
Proof.
  intros Hst Hcalls. revert st Hst.
  induction Hcalls as [|[[[sender now] _score] _playerName] calls Hrange _ IH];
    intros st Hst; cbn [submitAll].
  - by intros [= <-].
  - destruct (submitScore sender now _score _playerName st) as [[st1 events]| |]
      eqn:Hcall; cbn [andThen]; [|discriminate..].
    apply IH. by eapply submitted_score.
Qed.

Lemma sampleLedger_submitted : submitted sampleLedger.
Proof.
  apply (submitAll_submitted
           [(7, 100, 40, "ann"); (9, 101, 96, "bob"); (7, 102, 12, "anna")]
           deployed); [apply submitted_deployed| |vm_compute; reflexivity].
  repeat constructor; cbn; unfold MAX_UINT256; lia.
Qed.

Lemma sumZ_length {A : Type} (l : list A) :
  sumZ ((λ _, 1) <$> l) = Z.of_nat (length l).
Proof. induction l as [|x l IH]; [done|]. cbn [fmap list_fmap length]. rewrite sumZ_cons. lia. Qed.

Lemma sumZ_positive (l : list Z) :
  (∀ x, x ∈ l → 0 < x) → Z.of_nat (length l) ≤ sumZ l.
Proof.
  induction l as [|x l IH]; intros Hpos; [done|].
  rewrite sumZ_cons. cbn [length].
  pose proof (Hpos x (list_elem_of_here _ _)).
  pose proof (IH (λ y Hy, Hpos y (list_elem_of_further _ _ _ Hy))). lia.
Qed.

Lemma scoresOf_elem p st s : s ∈ scoresOf p st ↔ scorePlayer s = p ∧ s ∈ allScores st.
Proof. unfold scoresOf. by rewrite list_elem_of_filter. Qed.

(** On a consistent ledger a player has at least as many points as games. *)
Lemma consistent_total st p :
  consistent st →
  gamesPlayed (getPlayerStats p st) ≤ totalScore (getPlayerStats p st).
Proof.
  intros (_ & Hpos & Hstats). destruct (Hstats p) as (_ & -> & -> & _).
  rewrite <- length_fmap with (f := score). apply sumZ_positive.
  intros x (s & -> & Hs)%list_elem_of_fmap. apply Hpos.
  by apply scoresOf_elem in Hs as [_ Hs].
Qed.

Lemma submitScore_cases sender now _score _playerName st :
  consistent st →
  0 ≤ _score ≤ MAX_UINT256 →
  match submitScore sender now _score _playerName st with
  | Return _ =>
      0 < _score ∧ _playerName ≠ ""
      ∧ totalScore (getPlayerStats sender st) + _score ≤ MAX_UINT256
  | Revert reason =>
      (_score = 0 ∧ reason = "Score must be greater than 0")
      ∨ (0 < _score ∧ _playerName = "" ∧ reason = "Player name required")
  | Panic code =>
      code = 0x11 ∧ 0 < _score ∧ _playerName ≠ ""
      ∧ MAX_UINT256 < totalScore (getPlayerStats sender st) + _score
  end.
Proof.
  intros Hst Hrange. pose proof (consistent_total st sender Hst) as Htotal.
  unfold submitScore. cbn zeta.
  destruct (decide (0 < _score)) as [Hscore|]; [|left; split; [lia|done]].
  destruct (decide (0 < String.length _playerName)%nat) as [Hname|Hname].
  2:{ right. split; [done|]. split; [|done].
      destruct _playerName; [done|]. cbn in Hname. lia. }
  assert (_playerName ≠ "") as Hname' by (intros ->; cbn in Hname; lia).
  destruct (bool_decide (gamesPlayed (getPlayerStats sender st) = 0));
    cbn [gamesPlayed totalScore].
  all: destruct (decide (gamesPlayed (getPlayerStats sender st) = MAX_UINT256));
         [repeat split; [done..|lia]|].
  all: destruct (decide (MAX_UINT256 < totalScore (getPlayerStats sender st) + _score));
         [done|].
  all: repeat split; [done..|lia].
Qed.

Lemma submitScore_events sender now _score _playerName st st' events :
  consistent st →
  submitScore sender now _score _playerName st = Return (st', events) →
  (NewHighScore sender _playerName _score now ∈ events
   ↔ ∀ s, s ∈ scoresOf sender st → score s < _score)
  ∧ last events = Some (GamePlayed sender _score now).
Proof.
  intros (_ & _ & Hstats) Hcall.
  destruct (Hstats sender) as (_ & _ & _ & Hhigh & _).
  apply submitScore_Return in Hcall as (Hscore & _ & _ & _ & _ & _ & _ & ->).
  split; [|by rewrite last_snoc].
  assert (highScore (getPlayerStats sender st) < _score
          ↔ ∀ s, s ∈ scoresOf sender st → score s < _score) as Hlt.
  { rewrite Hhigh, highest_lt. split.
    - intros [_ Hall] s Hs. apply Hall. by apply list_elem_of_fmap_2.
    - intros Hall. split; [done|]. intros y (s & -> & Hs)%list_elem_of_fmap.
      by apply Hall. }
  rewrite <- Hlt. case_bool_decide as Hb.
  - split; [done|]. intros _. apply list_elem_of_here.
  - split; [|done]. cbn [app]. by intros [=]%list_elem_of_singleton.
Qed.

Lemma consistent_players st p :
  consistent st → p ∈ players st →
  player (getPlayerStats p st) = p
  ∧ 0 < gamesPlayed (getPlayerStats p st)
  ∧ 0 < highScore (getPlayerStats p st).
Proof.
  intros (_ & Hpos & Hstats) Hp.
  destruct (Hstats p) as (Hin & Hgames & _ & _ & Hentry).
  destruct (Hentry Hp) as (Hplayer & s & Hs & Hval & _).
  split; [done|]. split.
  - rewrite Hgames. apply Hin in Hp. destruct (scoresOf p st); [done|].
    cbn [length]. lia.
  - rewrite <- Hval. apply Hpos. by apply scoresOf_elem in Hs as [_ Hs].
Qed.

Lemma getTopPlayers_players (_count : Z) (st : Storage) :
  consistent st → 0 ≤ _count →
  ∃ top,
    getTopPlayers _count st = Return top
    ∧ NoDup (player <$> top)
    ∧ ∀ e, e ∈ top →
        player e ∈ players st ∧ e = getPlayerStats (player e) st
        ∧ 0 < gamesPlayed e ∧ 0 < highScore e.
Proof.
  intros Hst Hcount.
  destruct (getTopPlayers_spec _count st Hcount)
    as (top & rest & Hcall & _ & _ & Hperm & _).
  exists top. split; [done|].
  assert (player <$> ((λ p, getPlayerStats p st) <$> players st) = players st)
    as Hplayers.
  { rewrite <- list_fmap_compose. rewrite <- (list_fmap_id (players st)) at 2.
    apply Forall_fmap_ext, Forall_forall. intros p Hp. cbn.
    by apply (consistent_players st p Hst). }
  split.
  - assert (NoDup (player <$> (top ++ rest))) as Hnodup.
    { rewrite Hperm, Hplayers. apply Hst. }
    rewrite fmap_app in Hnodup. by apply NoDup_app in Hnodup as [? _].
  - intros e He.
    assert (e ∈ (λ p, getPlayerStats p st) <$> players st) as Hin.
    { rewrite <- Hperm. apply elem_of_app. by left. }
    apply list_elem_of_fmap in Hin as (p & -> & Hp).
    destruct (consistent_players st p Hst Hp) as (Hplayer & Hgames & Hhigh).
    rewrite Hplayer. done.
Qed.

Lemma sumZ_fmap_add {A : Type} (f g : A → Z) (l : list A) :
  sumZ ((λ x, f x + g x) <$> l) = sumZ (f <$> l) + sumZ (g <$> l).
Proof.
  induction l as [|x l IH]; [done|]. cbn [fmap list_fmap].
  rewrite !sumZ_cons. cbn [fmap] in IH. lia.
Qed.

Lemma sumZ_fmap_zero {A : Type} (f : A → Z) (l : list A) :
  (∀ x, x ∈ l → f x = 0) → sumZ (f <$> l) = 0.
Proof.
  induction l as [|x l IH]; intros Hzero; [done|]. cbn [fmap list_fmap].
  rewrite sumZ_cons, (Hzero x (list_elem_of_here _ _)).
  cbn [fmap] in IH. rewrite IH; [done|].
  intros y Hy. apply Hzero. by apply list_elem_of_further.
Qed.

Lemma sumZ_indicator (x c : Z) (ps : list Z) :
  NoDup ps → x ∈ ps →
  sumZ ((λ p, if decide (x = p) then c else 0) <$> ps) = c.
Proof.
  induction 1 as [|p ps Hp Hnodup IH]; intros Hx; [by apply elem_of_nil in Hx|].
  cbn [fmap list_fmap]. rewrite sumZ_cons. cbn [fmap] in IH.
  destruct (decide (x = p)) as [->|Hne].
  - rewrite sumZ_fmap_zero; [lia|]. intros y Hy.
    rewrite decide_False; [done|]. by intros <-.
  - apply elem_of_cons in Hx as [?|Hx]; [done|]. rewrite IH by done. lia.
Qed.

(** The scores of a log, summed player by player. *)
Lemma sumZ_by_player (w : Score → Z) (ps : list Z) (l : list Score) :
  NoDup ps →
  (∀ s, s ∈ l → scorePlayer s ∈ ps) →
  sumZ ((λ p, sumZ (w <$> filter (λ s, scorePlayer s = p) l)) <$> ps)
  = sumZ (w <$> l).
Proof.
  intros Hnodup. induction l as [|s l IH]; intros Hin.
  - by apply sumZ_fmap_zero.
  - cbn [fmap list_fmap]. rewrite sumZ_cons, <- IH.
    2:{ intros s' Hs'. apply Hin. by apply list_elem_of_further. }
    rewrite <- (sumZ_indicator (scorePlayer s) (w s) ps Hnodup)
      by apply Hin, list_elem_of_here.
    rewrite <- sumZ_fmap_add. f_equal. apply list_fmap_ext. intros _ p _.
    rewrite filter_cons. destruct (decide (scorePlayer s = p)); [|done].
    cbn [fmap list_fmap]. by rewrite sumZ_cons.
Qed.

Lemma consistent_totals st :
  consistent st →
  getTotalGamesPlayed st
  = sumZ ((λ p, gamesPlayed (getPlayerStats p st)) <$> players st)
  ∧ sumZ (score <$> allScores st)
    = sumZ ((λ p, totalScore (getPlayerStats p st)) <$> players st).
Proof.
  intros (Hnodup & _ & Hstats).
  assert (∀ s, s ∈ allScores st → scorePlayer s ∈ players st) as Hin.
  { intros s Hs. apply (Hstats (scorePlayer s)).
    intros Hnone. assert (s ∈ scoresOf (scorePlayer s) st) as Hs'
      by by apply scoresOf_elem.
    rewrite Hnone in Hs'. by apply elem_of_nil in Hs'. }
  split.
  - unfold getTotalGamesPlayed.
    rewrite <- sumZ_length, <- (sumZ_by_player _ (players st)) by done.
    f_equal. apply list_fmap_ext. intros _ p _.
    destruct (Hstats p) as (_ & -> & _). by rewrite sumZ_length.
  - rewrite <- (sumZ_by_player _ (players st)) by done.
    f_equal. apply list_fmap_ext. intros _ p _.
    by destruct (Hstats p) as (_ & _ & -> & _).
Qed.

Lemma submitted_unlisted st p :
  submitted st → p ∉ players st → playerStats st !! p = None.
Proof.
  induction 1 as [|sender now _score _playerName st st' events Hst IH Hrange Hcall];
    intros Hp; [done|].
  pose proof (submitted_consistent _ Hst) as Hcons.
  pose proof (submitScore_consistent _ _ _ _ _ _ _ Hcons Hcall) as (_ & _ & Hstats').
  apply submitScore_Return in Hcall as (_ & _ & _ & _ & Hscores & Hplayers & Hmap & _).
  assert (sender ∈ players st') as Hsender.
  { apply (Hstats' sender). intros Hnone.
    assert ({| scorePlayer := sender; score := _score; timestamp := now;
               scorePlayerName := _playerName |} ∈ scoresOf sender st') as Hin.
    { apply scoresOf_elem. split; [done|]. rewrite Hscores.
      apply elem_of_app. right. apply list_elem_of_here. }
    rewrite Hnone in Hin. by apply elem_of_nil in Hin. }
  rewrite Hmap, lookup_insert_ne by (by intros ->).
  apply IH. intros Hold. apply Hp. rewrite Hplayers.
  destruct (bool_decide _); [apply elem_of_app; by left | done].
Qed.

(** X18: after any sequence of calls of [submitScore] from deployment the
    statistics agree with the log of scores: [players] lists without
    repetition the addresses with a score, every logged score is positive, and
    for every address [gamesPlayed], [totalScore] and [highScore] are the
    number, the sum and the maximum of its logged scores; a listed player's
    entry carries its address and the name submitted with a score equal to its
    high score. *)
Theorem ledger_consistent (st : Storage) : submitted st → consistent st.
Proof. apply submitted_consistent. Qed.

Lemma ledger_consistent_witness : consistent sampleLedger.
Proof. apply (ledger_consistent sampleLedger), sampleLedger_submitted. Defined.

(** X19: how a call of [submitScore] ends on a ledger reached from
    deployment: it reverts with "Score must be greater than 0" for a score of
    0, otherwise with "Player name required" for an empty name; otherwise it
    panics with code 0x11 exactly when the sender's total score would exceed
    the largest [uint256], and returns in all other cases.  The counter of
    games never overflows before the total does. *)
Theorem submitScore_outcome (sender now _score : Z) (_playerName : string)
    (st : Storage) :
  submitted st →
  0 ≤ _score ≤ MAX_UINT256 →
  match submitScore sender now _score _playerName st with
  | Return _ =>
      0 < _score ∧ _playerName ≠ ""
      ∧ totalScore (getPlayerStats sender st) + _score ≤ MAX_UINT256
  | Revert reason =>
      (_score = 0 ∧ reason = "Score must be greater than 0")
      ∨ (0 < _score ∧ _playerName = "" ∧ reason = "Player name required")
  | Panic code =>
      code = 0x11 ∧ 0 < _score ∧ _playerName ≠ ""
      ∧ MAX_UINT256 < totalScore (getPlayerStats sender st) + _score
  end.
Proof. intros Hst. by apply submitScore_cases, submitted_consistent. Qed.

Lemma submitScore_outcome_witness :
  match submitScore 7 103 MAX_UINT256 "ann" sampleLedger with
  | Return _ =>
      0 < MAX_UINT256 ∧ "ann" ≠ ""
      ∧ totalScore (getPlayerStats 7 sampleLedger) + MAX_UINT256 ≤ MAX_UINT256
  | Revert reason =>
      (MAX_UINT256 = 0 ∧ reason = "Score must be greater than 0")
      ∨ (0 < MAX_UINT256 ∧ "ann" = "" ∧ reason = "Player name required")
  | Panic code =>
      code = 0x11 ∧ 0 < MAX_UINT256 ∧ "ann" ≠ ""
      ∧ MAX_UINT256 < totalScore (getPlayerStats 7 sampleLedger) + MAX_UINT256
  end.
Proof.
  apply (submitScore_outcome 7 103 MAX_UINT256 "ann" sampleLedger);
    [apply sampleLedger_submitted | unfold MAX_UINT256; lia].
Defined.

(** X20: on a ledger reached from deployment, a call of [submitScore] that
    returns emits [NewHighScore] exactly when the score is higher than every
    score the sender submitted before, and [GamePlayed] is its last event. *)
Theorem submitScore_high_score_event (sender now _score : Z)
    (_playerName : string) (st : Storage) :
  submitted st →
  match submitScore sender now _score _playerName st with
  | Return (_, events) =>
      (NewHighScore sender _playerName _score now ∈ events
       ↔ ∀ s, s ∈ scoresOf sender st → score s < _score)
      ∧ last events = Some (GamePlayed sender _score now)
  | _ => True
  end.
Proof.
  intros Hst%submitted_consistent.
  destruct (submitScore sender now _score _playerName st) as [[st' events]| |]
    eqn:Hcall; [|done..].
  by eapply submitScore_events.
Qed.

Lemma submitScore_high_score_event_witness :
  match submitScore 7 103 41 "ann" sampleLedger with
  | Return (_, events) =>
      (NewHighScore 7 "ann" 41 103 ∈ events
       ↔ ∀ s, s ∈ scoresOf 7 sampleLedger → score s < 41)
      ∧ last events = Some (GamePlayed 7 41 103)
  | _ => True
  end.
Proof.
  apply (submitScore_high_score_event 7 103 41 "ann" sampleLedger),
    sampleLedger_submitted.
Defined.

(** X21: on a ledger reached from deployment the entries [getTopPlayers]
    returns belong to distinct listed players: each is the statistics of the
    address it carries, which has played and has a positive high score. *)
Theorem getTopPlayers_distinct_players (_count : Z) (st : Storage) :
  submitted st → 0 ≤ _count →
  ∃ top,
    getTopPlayers _count st = Return top
    ∧ NoDup (player <$> top)
    ∧ ∀ e, e ∈ top →
        player e ∈ players st ∧ e = getPlayerStats (player e) st
        ∧ 0 < gamesPlayed e ∧ 0 < highScore e.
Proof. intros Hst%submitted_consistent. by apply getTopPlayers_players. Qed.

Lemma getTopPlayers_distinct_players_witness :
  ∃ top,
    getTopPlayers 5 sampleLedger = Return top
    ∧ NoDup (player <$> top)
    ∧ ∀ e, e ∈ top →
        player e ∈ players sampleLedger
        ∧ e = getPlayerStats (player e) sampleLedger
        ∧ 0 < gamesPlayed e ∧ 0 < highScore e.
Proof.
  apply (getTopPlayers_distinct_players 5 sampleLedger);
    [apply sampleLedger_submitted | lia].
Defined.

(** X22: on a ledger reached from deployment [getTotalGamesPlayed] is the sum
    of [gamesPlayed] over the listed players, and the sum of all logged
    scores is the sum of their [totalScore]. *)
Theorem getTotalGamesPlayed_by_player (st : Storage) :
  submitted st →
  getTotalGamesPlayed st
  = sumZ ((λ p, gamesPlayed (getPlayerStats p st)) <$> players st)
  ∧ sumZ (score <$> allScores st)
    = sumZ ((λ p, totalScore (getPlayerStats p st)) <$> players st).
Proof. intros Hst%submitted_consistent. by apply consistent_totals. Qed.

Lemma getTotalGamesPlayed_by_player_witness :
  getTotalGamesPlayed sampleLedger
  = sumZ ((λ p, gamesPlayed (getPlayerStats p sampleLedger)) <$> players sampleLedger)
  ∧ sumZ (score <$> allScores sampleLedger)
    = sumZ ((λ p, totalScore (getPlayerStats p sampleLedger))
              <$> players sampleLedger).
Proof.
  apply (getTotalGamesPlayed_by_player sampleLedger), sampleLedger_submitted.
Defined.

(** X23: on a ledger reached from deployment [getPlayerStats] of an address
    that is not a listed player is the all-zero entry with an empty name, and
    [getPlayerStats] of a listed player is not. *)
Theorem getPlayerStats_unlisted (st : Storage) (p : Z) :
  submitted st →
  (p ∉ players st ↔ getPlayerStats p st = zeroEntry).
Proof.
  intros Hst. split.
  - intros Hp. unfold getPlayerStats. by rewrite (submitted_unlisted st p Hst Hp).
  - intros Hzero Hp.
    destruct (consistent_players st p (submitted_consistent _ Hst) Hp)
      as (_ & Hgames & _).
    rewrite Hzero in Hgames. cbn in Hgames. lia.
Qed.

Lemma getPlayerStats_unlisted_witness :
  (8 ∉ players sampleLedger ↔ getPlayerStats 8 sampleLedger = zeroEntry)
  ∧ (7 ∉ players sampleLedger ↔ getPlayerStats 7 sampleLedger = zeroEntry).
Proof.
  split.
  - apply (getPlayerStats_unlisted sampleLedger 8), sampleLedger_submitted.
  - apply (getPlayerStats_unlisted sampleLedger 7), sampleLedger_submitted.
Defined.

End Game2048Proofs.
